(** * KRONOS landing page: the animation / reveal orchestration engine

    A shallow embedding of the stateful parts of [src/App.tsx]:
    the hero parallax arithmetic, the scroll progress bar, the navigation
    hide-on-scroll controller, the body scroll lock shared by the two
    full-screen overlays, the animated counter, the one-shot visibility
    triggers and the timer-driven preloader.

    Conventions.
    - JavaScript numbers are modelled by rationals [Q]; equalities between
      computed numbers are stated with [==] (Qeq).  Where the last bit of a
      double decides what the program does, namely when the repeated sums of
      the animated counter and of a preloader stage reach their target,
      every operation is rounded to binary64 with [Binary64.round]
      ([AnimatedCounter], [StageArithmetic]); elsewhere the arithmetic is
      exact.
    - Wall-clock instants and timer delays are integers (milliseconds, [Z]).
    - React state is explicit: every [useState] cell is a record field and
      every [useEffect] is a function that is re-run by the setter of one of
      its dependencies. *)

From Stdlib Require Import ZArith QArith Qround Qpower Lia Lqa List Bool String.
From Stdlib Require PrimFloat FloatOps SpecFloat.
Import ListNotations.

Local Open Scope Q_scope.

(** ** JavaScript [Math] helpers *)

Module JsMath.

(** [Math.min(a, b)] *)
Definition min (a b : Q) : Q := if Qlt_le_dec b a then b else a.

(** [Math.max(a, b)] *)
Definition max (a b : Q) : Q := if Qlt_le_dec a b then b else a.

(** [Math.floor(a)], as a rational again *)
Definition floor (a : Q) : Q := inject_Z (Qfloor a).

(** The usual three-argument clamp the specification writes [clamp(x, lo, hi)]. *)
Definition clamp (x lo hi : Q) : Q := max lo (min x hi).

End JsMath.

(** ** IEEE 754 binary64 rounding

    A JavaScript number is a binary64 double, and [+], [-], [*], [/] return
    the exact result rounded to the nearest double, ties to the even
    mantissa.  [round] is that rounding on rationals: 53 bits of mantissa,
    exponents from [emin] upwards (subnormals included).  The format's
    largest exponent is not modelled: sums are taken here only of numbers
    far below [2^1024], where no operation overflows. *)

Module Binary64.

(** The exponent of the last bit of a subnormal number. *)
Definition emin : Z := (-1074)%Z.

Definition pow2 (k : Z) : Q := 2 ^ k.

(** The unit roundoff, half the gap between 1 and the next double. *)
Definition u : Q := pow2 (-53).

(** [floor (log2 x)] for a positive [x]. *)
Definition ilog2 (x : Q) : Z :=
  let k := (Z.log2 (Qnum x) - Z.log2 (Zpos (Qden x)))%Z in
  if Qle_bool (pow2 k) x then k else (k - 1)%Z.

(** The nearest integer, ties to even. *)
Definition rne (q : Q) : Z :=
  let f := Qfloor q in
  match Qcompare (q - inject_Z f) (1 # 2) with
  | Lt => f
  | Gt => (f + 1)%Z
  | Eq => if Z.even f then f else (f + 1)%Z
  end.

(** The exponent of the last mantissa bit of the doubles around [x]. *)
Definition exponent (x : Q) : Z := Z.max emin (ilog2 x - 52).

Definition roundPos (x : Q) : Q :=
  inject_Z (rne (x / pow2 (exponent x))) * pow2 (exponent x).

Definition round (x : Q) : Q :=
  match Qcompare x 0 with
  | Eq => 0
  | Gt => roundPos x
  | Lt => - roundPos (- x)
  end.

End Binary64.

(** ** Hero parallax (function [HeroSection], "Parallax calculations") *)

Module Hero.

(** [const progress = Math.min(scrollY / (viewportHeight * 0.7), 1);] *)
Definition progress (scrollY viewportHeight : Q) : Q :=
  JsMath.min (scrollY / (viewportHeight * (7 # 10))) 1.

(** [const contentOpacity = 1 - progress;] *)
Definition contentOpacity (scrollY viewportHeight : Q) : Q :=
  1 - progress scrollY viewportHeight.

(** [const contentTranslateY = scrollY * 0.3;] *)
Definition contentTranslateY (scrollY : Q) : Q := scrollY * (3 # 10).

(** [const contentScale = 1 - progress * 0.05;] *)
Definition contentScale (scrollY viewportHeight : Q) : Q :=
  1 - progress scrollY viewportHeight * (5 # 100).

(** [const scrollIndicatorOpacity = Math.max(0, 1 - progress * 2);] *)
Definition scrollIndicatorOpacity (scrollY viewportHeight : Q) : Q :=
  JsMath.max 0 (1 - progress scrollY viewportHeight * 2).

(** The scroll listener of the hero: the stored offset follows the window
    only while [window.scrollY < viewportHeight]. *)
Definition handleScroll (viewportHeight windowScrollY scrollY : Q) : Q :=
  if Qlt_le_dec windowScrollY viewportHeight then windowScrollY else scrollY.

End Hero.

(** ** Scroll progress bar (function [ScrollProgressBar]) *)

Module ScrollProgressBar.

(** [updateProgress]: the percentage stored in the [progress] state cell.
<<
    const scrollHeight = document.documentElement.scrollHeight - window.innerHeight;
    const scrolled = window.scrollY;
    const newProgress = scrollHeight > 0 ? (scrolled / scrollHeight) * 100 : 0;
>> *)
Definition updateProgress (scrollY documentHeight viewportHeight : Q) : Q :=
  let scrollHeight := documentHeight - viewportHeight in
  let scrolled := scrollY in
  if Qlt_le_dec 0 scrollHeight then (scrolled / scrollHeight) * 100 else 0.

(** The fraction handed to the renderer: [scaleX(${progress / 100})]. *)
Definition scaleX (scrollY documentHeight viewportHeight : Q) : Q :=
  updateProgress scrollY documentHeight viewportHeight / 100.

End ScrollProgressBar.

(** ** Navigation: hide on scroll down, show on scroll up
    (function [Navigation], effect "2.5") *)

Module Navigation.

(** The two state cells the scroll listener reads and writes:
    [const [hideNav, setHideNav] = useState(false)] and
    [const [lastScrollY, setLastScrollY] = useState(0)]. *)
Record ScrollState := mkScrollState {
  hideNav : bool;
  lastScrollY : Q
}.

Definition initial : ScrollState := mkScrollState false 0.

(** [handleScroll], with [currentScrollY = window.scrollY].  The effect is
    re-subscribed whenever [lastScrollY] changes, so the handler always sees
    the offset stored by the previous event.
<<
    if (currentScrollY > 500) {
      if (currentScrollY > lastScrollY && currentScrollY - lastScrollY > 10) {
        setHideNav(true);
      } else if (lastScrollY - currentScrollY > 10) {
        setHideNav(false);
      }
    } else {
      setHideNav(false);
    }
    setLastScrollY(currentScrollY);
>> *)
Definition handleScroll (currentScrollY : Q) (s : ScrollState) : ScrollState :=
  let hide :=
    if Qlt_le_dec 500 currentScrollY then
      if Qlt_le_dec (lastScrollY s) currentScrollY then
        if Qlt_le_dec 10 (currentScrollY - lastScrollY s) then true
        else if Qlt_le_dec 10 (lastScrollY s - currentScrollY) then false
        else hideNav s
      else if Qlt_le_dec 10 (lastScrollY s - currentScrollY) then false
      else hideNav s
    else false in
  mkScrollState hide currentScrollY.

(** A sequence of scroll events, oldest first. *)
Definition scrollAll (events : list Q) (s : ScrollState) : ScrollState :=
  fold_left (fun st y => handleScroll y st) events s.

(** The translation class of the header:
    [hideNav && !mobileOpen ? '-translate-y-full' : 'translate-y-0']. *)
Definition headerTranslate (hideNav mobileOpen : bool) : string :=
  if hideNav && negb mobileOpen then "-translate-y-full"%string
  else "translate-y-0"%string.

End Navigation.

(** ** Body scroll lock of the mobile menu and of the search overlay

    Both [Navigation] and its child [SearchOverlay] write the one shared cell
    [document.body.style.overflow] from a [useEffect]. *)

Module BodyLock.

Record State := mkState {
  mobileOpen : bool;
  searchOpen : bool;
  megaMenuOpen : bool;
  overflow : string          (* document.body.style.overflow *)
}.

Definition setOverflow (v : string) (s : State) : State :=
  mkState (mobileOpen s) (searchOpen s) (megaMenuOpen s) v.

(** Effect of [SearchOverlay] (dependencies [isOpen, onClose]).
<<
    if (isOpen) { ...; document.body.style.overflow = 'hidden'; }
    else { document.body.style.overflow = ''; }
    return () => { ...; document.body.style.overflow = ''; };
>> *)
Definition searchEffect_cleanup (s : State) : State := setOverflow EmptyString s.
Definition searchEffect_body (s : State) : State :=
  if searchOpen s then setOverflow "hidden" s else setOverflow EmptyString s.

(** Effect of [Navigation] (dependency [mobileOpen]).
<<
    if (mobileOpen) { ...; document.body.style.overflow = 'hidden'; ... }
    else { document.body.style.overflow = ''; }
    return () => { ...; document.body.style.overflow = ''; };
>> *)
Definition navEffect_cleanup (s : State) : State := setOverflow EmptyString s.
Definition navEffect_body (s : State) : State :=
  if mobileOpen s then setOverflow "hidden" s else setOverflow EmptyString s.

(** One commit of [Navigation] after a state change.  [SearchOverlay]
    receives [onClose={() => setSearchOpen(false)}], a fresh closure on every
    render of [Navigation], so its effect is re-run by every commit; the
    effect of [Navigation] is re-run only when [mobileOpen] changed.  React
    runs the clean-ups of a commit before its effect bodies, and the child's
    before the parent's. *)
Definition commit (mobileChanged : bool) (s : State) : State :=
  let s1 := searchEffect_cleanup s in
  let s2 := if mobileChanged then navEffect_cleanup s1 else s1 in
  let s3 := searchEffect_body s2 in
  if mobileChanged then navEffect_body s3 else s3.

(** The first commit runs both effect bodies, the child's first. *)
Definition mount : State :=
  navEffect_body (searchEffect_body (mkState false false false EmptyString)).

Inductive Event :=
| ToggleMobile        (* onClick={() => setMobileOpen(!mobileOpen)} *)
| CloseMobile         (* a link of the mobile menu: setMobileOpen(false) *)
| OpenSearch          (* onClick={() => setSearchOpen(true)} *)
| CloseSearch         (* onClose of the overlay: setSearchOpen(false) *)
| Escape              (* keydown 'Escape' on the document *)
| SetMegaMenu (open : bool)
                      (* the hover handlers: setMegaMenuOpen(open) *)
| NavRender.          (* any other render of Navigation: the scroll listeners
                         changed scrolled, hideNav or lastScrollY, the
                         observer changed activeSection, or App rendered *)

(** State after the setters of one event, before the commit.  The keydown
    listener of [Navigation] is attached only while [mobileOpen], the one of
    [SearchOverlay] only while [isOpen]. *)
Definition update (e : Event) (s : State) : State :=
  match e with
  | ToggleMobile => mkState (negb (mobileOpen s)) (searchOpen s) (megaMenuOpen s) (overflow s)
  | CloseMobile => mkState false (searchOpen s) (megaMenuOpen s) (overflow s)
  | OpenSearch => mkState (mobileOpen s) true (megaMenuOpen s) (overflow s)
  | CloseSearch => mkState (mobileOpen s) false (megaMenuOpen s) (overflow s)
  | Escape =>
      let s1 := if mobileOpen s
                then mkState false (searchOpen s) false (overflow s) else s in
      if searchOpen s
      then mkState (mobileOpen s1) false (megaMenuOpen s1) (overflow s1) else s1
  | SetMegaMenu open => mkState (mobileOpen s) (searchOpen s) open (overflow s)
  | NavRender => s
  end.

Definition sameFlags (a b : State) : bool :=
  Bool.eqb (mobileOpen a) (mobileOpen b) &&
  Bool.eqb (searchOpen a) (searchOpen b) &&
  Bool.eqb (megaMenuOpen a) (megaMenuOpen b).

(** A setter called with the value already stored does not re-render; a
    render for any other reason commits with both overlay flags as they
    were. *)
Definition step (s : State) (e : Event) : State :=
  match e with
  | NavRender => commit false s
  | _ =>
      let s' := update e s in
      if sameFlags s s' then s
      else commit (negb (Bool.eqb (mobileOpen s) (mobileOpen s'))) s'
  end.

Definition run (events : list Event) : State := fold_left step events mount.

Definition locked (s : State) : bool := String.eqb (overflow s) "hidden".
Definition anyOverlayOpen (s : State) : bool := mobileOpen s || searchOpen s.

End BodyLock.

(** ** Animated counter (component [AnimatedCounter]) *)

Module AnimatedCounter.

(** [animationConfig]: [{ steps: 60, increment: value / 60, intervalMs: 30 }].
    The quotient is a double; [steps] is declared and never read. *)
Definition steps : nat := 60.
Definition increment (value : Q) : Q := Binary64.round (value / 60).
Definition intervalMs : Z := 30.

(** The closure variable [current], the state cell [count] and whether the
    interval is still registered. *)
Record State := mkState {
  current : Q;
  count : Q;
  running : bool
}.

(** State right after the view trigger fired: [let current = 0], the
    [useState(0)] cell untouched, the interval registered. *)
Definition start : State := mkState 0 0 true.

(** One firing of the interval callback.  A cleared interval never fires.
    The sum is rounded to a double; the comparison and [Math.floor] are
    exact.
<<
    current += animationConfig.increment;
    if (current >= value) { setCount(value); clearInterval(interval); }
    else { setCount(Math.floor(current)); }
>> *)
Definition tick (value : Q) (s : State) : State :=
  if running s then
    let current' := Binary64.round (current s + increment value) in
    if Qlt_le_dec current' value
    then mkState current' (JsMath.floor current') true
    else mkState current' value false
  else s.

(** The state after [n] interval periods. *)
Fixpoint ticks (value : Q) (n : nat) : State :=
  match n with
  | O => start
  | S k => tick value (ticks value k)
  end.

(** The invariant of the loop: [current] is a non-negative double, a running
    counter shows its floor, a stopped one shows the target. *)
Definition inv (value : Q) (s : State) : Prop :=
  0 <= current s
  /\ Binary64.round (current s) == current s
  /\ (if running s
      then count s == JsMath.floor (current s) /\ count s <= value
      else count s = value).

(** The targets the page passes ([stats] of [StatsSection]). *)
Definition statValues : list Q := [6; 50; 10000; 200].

End AnimatedCounter.

(** ** One-shot visibility triggers ([useInView] of framer-motion) *)

Module Visibility.

(** The options object a component passes to [useInView]. *)
Record Options := mkOptions {
  site : string;             (* the calling component *)
  once : bool;
  amount : option Q;
  margin : option string
}.

(** Every call of [useInView] in [App.tsx], in source order. *)
Definition callSites : list Options :=
  [ mkOptions "AnimatedCounter" true None None;
    mkOptions "ManifestoSection" true (Some (2 # 10)) (Some "-100px"%string);
    mkOptions "DivisionCard" true None (Some "-80px"%string);
    mkOptions "DivisionsSection" true None (Some "-80px"%string);
    mkOptions "ConnectionSection" true None (Some "-100px"%string);
    mkOptions "StatsSection" true None (Some "-100px"%string);
    mkOptions "CTASection" true None (Some "-100px"%string) ].

(** What the intersection observer reports for the element: it crossed its
    threshold inwards or outwards. *)
Inductive Crossing := Enter | Leave.

(** The hook's state cell [isInView], and the number of times the reveal
    animation was started ([animate={isInView ? visible : {}}] starts it on
    each change of the flag from [false] to [true]). *)
Record Flag := mkFlag {
  isInView : bool;
  reveals : nat
}.

Definition unarmed : Flag := mkFlag false 0.

(** Modelled from the spec: the hook [useInView] is imported from the
    package framer-motion and its body is not part of [src/].  The
    specification describes it as a per-element trigger that is set true
    when the element intersects the viewport past its threshold and, with
    [once: true], is never reset; without [once] the flag follows the
    intersection. *)
Definition observe (o : Options) (f : Flag) (c : Crossing) : Flag :=
  match c with
  | Enter =>
      if isInView f then f else mkFlag true (S (reveals f))
  | Leave =>
      if once o then f else mkFlag false (reveals f)
  end.

Definition observeAll (o : Options) (cs : list Crossing) (f : Flag) : Flag :=
  fold_left (observe o) cs f.

(** A flag is well-formed when its reveal count records whether it was
    ever set. *)
Definition consistent (f : Flag) : Prop :=
  reveals f = if isInView f then 1%nat else 0%nat.

End Visibility.

(** ** Preloader (component [Preloader], mounted by [App])

    The component is a set of timers racing each other.  The model keeps the
    browser's timer queue explicit, so that which timer is cancelled by which
    effect clean-up, and which is never cancelled, is visible. *)

Module Preloader.

Local Open Scope Z_scope.

(** [useState<'loading' | 'complete' | 'exit'>('loading')] *)
Inductive Phase := loading | complete | exit.

Definition Phase_eqb (a b : Phase) : bool :=
  match a, b with
  | loading, loading | complete, complete | exit, exit => true
  | _, _ => false
  end.

Record Stage := mkStage { target : Z; duration : Z }.

(** The stage table of the loading effect. *)
Definition stages : list Stage :=
  [ mkStage 15 200;    (* Initial burst *)
    mkStage 35 400;    (* Fonts loading *)
    mkStage 55 300;    (* Scripts *)
    mkStage 75 500;    (* 3D assets *)
    mkStage 90 400;    (* Final resources *)
    mkStage 100 200 ]. (* Complete *)

(** The closures handed to [setTimeout] / [setInterval].  A closure carries
    what it captured from the render that created it: the watchdog captures
    [phase] and [onComplete], the exit timer captures [onComplete].  The
    prop [onComplete] is identified by the number of the [App] render that
    created it ([onComplete={() => setLoaded(true)}] is a new function on
    every render of [App]). *)
Inductive Callback :=
| ShowSkip                                   (* () => setShowSkip(true) *)
| TimeoutFallback (captured : Phase) (k : nat)
| OnComplete (k : nat)                       (* the prop itself *)
| RunStage
| StageTick (stageTarget : Z) (increment : Q)
| AssetsReadyTimer                           (* () => setAssetsReady(true) *)
| ExitTimer (k : nat)
| Unmount.   (* AnimatePresence drops the component when its exit animation ends *)

Record Timer := mkTimer {
  id : nat;
  due : Z;
  every : option Z;        (* [Some p] for [setInterval(_, p)] *)
  callback : Callback
}.

Record State := mkState {
  now : Z;
  (* lifecycle *)
  mounted : bool;                (* Preloader is in the React tree *)
  loaded : bool;                 (* [loaded] of [App] *)
  onComplete : nat;              (* current value of the prop *)
  (* state cells of Preloader *)
  progress : Z;
  phase : Phase;
  assetsReady : bool;
  showSkip : bool;
  (* [let] variables of the loading effect *)
  currentStage : nat;
  currentProgress : Q;
  (* the browser's timers *)
  timers : list Timer;
  nextId : nat;
  (* handles kept by the effect clean-ups *)
  skipTimer : option nat;
  timeoutFallback : option nat;
  startTimer : option nat;
  exitTimer : option nat;
  (* instants at which the prop was called, latest first, with the render
     that created the called closure *)
  calls : list (Z * nat)
}.

(** Functional update of one field. *)

Definition with_now (x : Z) (s : State) : State :=
  mkState x (mounted s) (loaded s) (onComplete s) (progress s) (phase s)
    (assetsReady s) (showSkip s) (currentStage s) (currentProgress s)
    (timers s) (nextId s) (skipTimer s) (timeoutFallback s) (startTimer s)
    (exitTimer s) (calls s).

Definition with_mounted (x : bool) (s : State) : State :=
  mkState (now s) x (loaded s) (onComplete s) (progress s) (phase s)
    (assetsReady s) (showSkip s) (currentStage s) (currentProgress s)
    (timers s) (nextId s) (skipTimer s) (timeoutFallback s) (startTimer s)
    (exitTimer s) (calls s).

Definition with_loaded (x : bool) (s : State) : State :=
  mkState (now s) (mounted s) x (onComplete s) (progress s) (phase s)
    (assetsReady s) (showSkip s) (currentStage s) (currentProgress s)
    (timers s) (nextId s) (skipTimer s) (timeoutFallback s) (startTimer s)
    (exitTimer s) (calls s).

Definition with_onComplete (x : nat) (s : State) : State :=
  mkState (now s) (mounted s) (loaded s) x (progress s) (phase s)
    (assetsReady s) (showSkip s) (currentStage s) (currentProgress s)
    (timers s) (nextId s) (skipTimer s) (timeoutFallback s) (startTimer s)
    (exitTimer s) (calls s).

Definition with_progress (x : Z) (s : State) : State :=
  mkState (now s) (mounted s) (loaded s) (onComplete s) x (phase s)
    (assetsReady s) (showSkip s) (currentStage s) (currentProgress s)
    (timers s) (nextId s) (skipTimer s) (timeoutFallback s) (startTimer s)
    (exitTimer s) (calls s).

Definition with_phase (x : Phase) (s : State) : State :=
  mkState (now s) (mounted s) (loaded s) (onComplete s) (progress s) x
    (assetsReady s) (showSkip s) (currentStage s) (currentProgress s)
    (timers s) (nextId s) (skipTimer s) (timeoutFallback s) (startTimer s)
    (exitTimer s) (calls s).

Definition with_assetsReady (x : bool) (s : State) : State :=
  mkState (now s) (mounted s) (loaded s) (onComplete s) (progress s) (phase s)
    x (showSkip s) (currentStage s) (currentProgress s) (timers s) (nextId s)
    (skipTimer s) (timeoutFallback s) (startTimer s) (exitTimer s) (calls s).

Definition with_showSkip (x : bool) (s : State) : State :=
  mkState (now s) (mounted s) (loaded s) (onComplete s) (progress s) (phase s)
    (assetsReady s) x (currentStage s) (currentProgress s) (timers s)
    (nextId s) (skipTimer s) (timeoutFallback s) (startTimer s) (exitTimer s)
    (calls s).

Definition with_currentStage (x : nat) (s : State) : State :=
  mkState (now s) (mounted s) (loaded s) (onComplete s) (progress s) (phase s)
    (assetsReady s) (showSkip s) x (currentProgress s) (timers s) (nextId s)
    (skipTimer s) (timeoutFallback s) (startTimer s) (exitTimer s) (calls s).

Definition with_currentProgress (x : Q) (s : State) : State :=
  mkState (now s) (mounted s) (loaded s) (onComplete s) (progress s) (phase s)
    (assetsReady s) (showSkip s) (currentStage s) x (timers s) (nextId s)
    (skipTimer s) (timeoutFallback s) (startTimer s) (exitTimer s) (calls s).

Definition with_timers (x : list Timer) (s : State) : State :=
  mkState (now s) (mounted s) (loaded s) (onComplete s) (progress s) (phase s)
    (assetsReady s) (showSkip s) (currentStage s) (currentProgress s) x
    (nextId s) (skipTimer s) (timeoutFallback s) (startTimer s) (exitTimer s)
    (calls s).

Definition with_nextId (x : nat) (s : State) : State :=
  mkState (now s) (mounted s) (loaded s) (onComplete s) (progress s) (phase s)
    (assetsReady s) (showSkip s) (currentStage s) (currentProgress s)
    (timers s) x (skipTimer s) (timeoutFallback s) (startTimer s)
    (exitTimer s) (calls s).

Definition with_skipTimer (x : option nat) (s : State) : State :=
  mkState (now s) (mounted s) (loaded s) (onComplete s) (progress s) (phase s)
    (assetsReady s) (showSkip s) (currentStage s) (currentProgress s)
    (timers s) (nextId s) x (timeoutFallback s) (startTimer s) (exitTimer s)
    (calls s).

Definition with_timeoutFallback (x : option nat) (s : State) : State :=
  mkState (now s) (mounted s) (loaded s) (onComplete s) (progress s) (phase s)
    (assetsReady s) (showSkip s) (currentStage s) (currentProgress s)
    (timers s) (nextId s) (skipTimer s) x (startTimer s) (exitTimer s)
    (calls s).

Definition with_startTimer (x : option nat) (s : State) : State :=
  mkState (now s) (mounted s) (loaded s) (onComplete s) (progress s) (phase s)
    (assetsReady s) (showSkip s) (currentStage s) (currentProgress s)
    (timers s) (nextId s) (skipTimer s) (timeoutFallback s) x (exitTimer s)
    (calls s).

Definition with_exitTimer (x : option nat) (s : State) : State :=
  mkState (now s) (mounted s) (loaded s) (onComplete s) (progress s) (phase s)
    (assetsReady s) (showSkip s) (currentStage s) (currentProgress s)
    (timers s) (nextId s) (skipTimer s) (timeoutFallback s) (startTimer s) x
    (calls s).

Definition with_calls (x : list (Z * nat)) (s : State) : State :=
  mkState (now s) (mounted s) (loaded s) (onComplete s) (progress s) (phase s)
    (assetsReady s) (showSkip s) (currentStage s) (currentProgress s)
    (timers s) (nextId s) (skipTimer s) (timeoutFallback s) (startTimer s)
    (exitTimer s) x.

(** Environment of a run: [pause k] is the delay [50 + Math.random() * 100]
    drawn after stage [k]; [exitAnimation] is the time AnimatePresence
    keeps the component mounted after [App] stopped rendering it (the
    [exit] transition of the root element lasts 0.5 s). *)
Record Env := mkEnv {
  pause : nat -> Z;
  exitAnimation : Z
}.

(** *** Timers *)

(** [setTimeout(cb, delay)]; the handle is the identifier just allocated. *)
Definition setTimeout (cb : Callback) (delay : Z) (s : State) : State :=
  with_nextId (S (nextId s))
    (with_timers (timers s ++ [mkTimer (nextId s) (now s + delay) None cb]) s).

(** [setInterval(cb, period)] *)
Definition setInterval (cb : Callback) (period : Z) (s : State) : State :=
  with_nextId (S (nextId s))
    (with_timers
       (timers s ++ [mkTimer (nextId s) (now s + period) (Some period) cb]) s).

(** [clearTimeout(h)] and [clearInterval(h)] *)
Definition clearTimer (h : nat) (s : State) : State :=
  with_timers (filter (fun t => negb (Nat.eqb (id t) h)) (timers s)) s.

Definition clearHandle (h : option nat) (s : State) : State :=
  match h with Some i => clearTimer i s | None => s end.

(** *** Effects *)

(** The watchdog effect, dependencies [[onComplete, phase]].
<<
    const timeoutFallback = setTimeout(() => {
      if (phase !== 'exit') { setPhase('exit'); setTimeout(onComplete, 300); }
    }, 10000);
    return () => clearTimeout(timeoutFallback);
>> *)
Definition timeoutEffect_cleanup (s : State) : State :=
  with_timeoutFallback None (clearHandle (timeoutFallback s) s).

Definition timeoutEffect_body (s : State) : State :=
  with_timeoutFallback (Some (nextId s))
    (setTimeout (TimeoutFallback (phase s) (onComplete s)) 10000 s).

(** The exit effect, dependencies [[assetsReady, onComplete]].
<<
    if (assetsReady) {
      const exitTimer = setTimeout(() => {
        setPhase('exit'); setTimeout(onComplete, 800);
      }, 600);
      return () => clearTimeout(exitTimer);
    }
>> *)
Definition exitEffect_cleanup (s : State) : State :=
  with_exitTimer None (clearHandle (exitTimer s) s).

Definition exitEffect_body (s : State) : State :=
  if assetsReady s
  then with_exitTimer (Some (nextId s)) (setTimeout (ExitTimer (onComplete s)) 600 s)
  else s.

(** *** State setters: a setter re-renders, and the render re-runs the
    effects that list the cell among their dependencies.  A setter called
    with the stored value, or on an unmounted component, does nothing. *)

Definition setPhase (p : Phase) (s : State) : State :=
  if mounted s && negb (Phase_eqb (phase s) p)
  then timeoutEffect_body (timeoutEffect_cleanup (with_phase p s))
  else s.

Definition setAssetsReady (b : bool) (s : State) : State :=
  if mounted s && negb (Bool.eqb (assetsReady s) b)
  then exitEffect_body (exitEffect_cleanup (with_assetsReady b s))
  else s.

Definition setShowSkip (b : bool) (s : State) : State :=
  if mounted s then with_showSkip b s else s.

Definition setProgress (p : Z) (s : State) : State :=
  if mounted s then with_progress p s else s.

(** *** Mounting and unmounting *)

Definition initial : State :=
  mkState 0 true false O 0 loading false false O 0%Q [] O None None None None [].

(** The first commit runs the four effects in source order: the skip
    timer (2000 ms), the watchdog, the start timer of the stage driver
    (300 ms) and the exit effect ([assetsReady] is still false). *)
Definition mount : State :=
  let s1 := with_skipTimer (Some (nextId initial)) (setTimeout ShowSkip 2000 initial) in
  let s2 := timeoutEffect_body s1 in
  let s3 := with_startTimer (Some (nextId s2)) (setTimeout RunStage 300 s2) in
  exitEffect_body s3.

(** Unmounting runs every clean-up.  Only the four handles are cleared: the
    stage interval, the inter-stage pause, the [setAssetsReady] timer and
    every pending [setTimeout(onComplete, _)] stay in the queue. *)
Definition unmount (s : State) : State :=
  let s1 := with_skipTimer None (clearHandle (skipTimer s) s) in
  let s2 := timeoutEffect_cleanup s1 in
  let s3 := with_startTimer None (clearHandle (startTimer s2) s2) in
  with_mounted false (exitEffect_cleanup s3).

(** *** The callbacks.  State updates requested by a callback are committed
    when it returns, hence after the timers it registered. *)

(** [const increment = (stage.target - currentProgress) / (stage.duration / 16);]
    The accumulator is an exact rational here; [StageArithmetic] below redoes
    the sums in binary64, where the fifth stage needs one firing more. *)
Definition stageIncrement (st : Stage) (currentProgress : Q) : Q :=
  ((inject_Z (target st) - currentProgress) / (inject_Z (duration st) / 16))%Q.

(** [runStage] *)
Definition runStage (s : State) : State :=
  match nth_error stages (currentStage s) with
  | None =>
      (* currentStage >= stages.length *)
      setPhase complete (setTimeout AssetsReadyTimer 400 s)
  | Some st =>
      setInterval (StageTick (target st) (stageIncrement st (currentProgress s))) 16 s
  end.

(** The interval callback of a stage; [self] is the handle [interval].
<<
    currentProgress += increment;
    if (currentProgress >= stage.target) {
      currentProgress = stage.target;
      setProgress(stage.target);
      clearInterval(interval);
      currentStage++;
      setTimeout(runStage, 50 + Math.random() * 100);
    } else {
      setProgress(Math.floor(currentProgress));
    }
>> *)
Definition stageTick (env : Env) (self : nat) (stageTarget : Z) (increment : Q)
    (s : State) : State :=
  let cp := (currentProgress s + increment)%Q in
  if Qlt_le_dec cp (inject_Z stageTarget)
  then setProgress (Qfloor cp) (with_currentProgress cp s)
  else
    let s1 := with_currentProgress (inject_Z stageTarget) s in
    let s2 := clearTimer self s1 in
    let s3 := with_currentStage (S (currentStage s2)) s2 in
    setProgress stageTarget (setTimeout RunStage (pause env (currentStage s)) s3).

(** The prop, as [App] passes it: [() => setLoaded(true)].  When [loaded]
    turns true [App] stops rendering the preloader and AnimatePresence
    unmounts it once the exit animation has run. *)
Definition callOnComplete (env : Env) (k : nat) (s : State) : State :=
  let s1 := with_calls ((now s, k) :: calls s) s in
  if loaded s1 then s1
  else setTimeout Unmount (exitAnimation env) (with_loaded true s1).

Definition fire (env : Env) (t : Timer) (s : State) : State :=
  match callback t with
  | ShowSkip => setShowSkip true s
  | TimeoutFallback captured k =>
      if Phase_eqb captured exit then s
      else setPhase exit (setTimeout (OnComplete k) 300 s)
  | OnComplete k => callOnComplete env k s
  | RunStage => runStage s
  | StageTick stageTarget increment => stageTick env (id t) stageTarget increment s
  | AssetsReadyTimer => setAssetsReady true s
  | ExitTimer k => setPhase exit (setTimeout (OnComplete k) 800 s)
  | Unmount => unmount s
  end.

(** [handleSkip], memoised on [onComplete]. *)
Definition handleSkip (s : State) : State :=
  setPhase exit (setTimeout (OnComplete (onComplete s)) 300 s).

(** The skip button is rendered only while [showSkip && phase === 'loading']. *)
Definition skipVisible (s : State) : bool :=
  mounted s && showSkip s && Phase_eqb (phase s) loading.

(** *** The event loop *)

(** The pending timer that fires next: the least [due], the oldest
    registration among equals. *)
Fixpoint earliest (ts : list Timer) : option Timer :=
  match ts with
  | [] => None
  | t :: rest =>
      match earliest rest with
      | None => Some t
      | Some u => if due u <? due t then Some u else Some t
      end
  end.

(** Run one timer: the clock moves to its instant, a timeout leaves the
    queue and an interval is re-armed, then the callback runs. *)
Definition dispatch (env : Env) (t : Timer) (s : State) : State :=
  let s1 := with_now (Z.max (now s) (due t)) s in
  let s2 := clearTimer (id t) s1 in
  let s3 := match every t with
            | Some p => with_timers
                          (timers s2 ++ [mkTimer (id t) (due t + p) (Some p) (callback t)]) s2
            | None => s2
            end in
  fire env t s3.

(** Let the next pending timer fire, when there is one. *)
Definition next (env : Env) (s : State) : State :=
  match earliest (timers s) with
  | Some t => dispatch env t s
  | None => s
  end.

(** What reaches the component from outside: a click on the skip button
    position, and a render of [App] (its [scrolled] cell flipped), which
    hands the preloader a new [onComplete]. *)
Inductive Input := ClickSkip | ParentRender.

Definition input (at_ : Z) (i : Input) (s : State) : State :=
  let s0 := with_now (Z.max (now s) at_) s in
  match i with
  | ClickSkip => if skipVisible s0 then handleSkip s0 else s0
  | ParentRender =>
      if mounted s0 && negb (loaded s0) then
        let s1 := with_onComplete (S (onComplete s0)) s0 in
        exitEffect_body
          (timeoutEffect_body (exitEffect_cleanup (timeoutEffect_cleanup s1)))
      else s0
  end.

(** Everything that happens up to and including instant [horizon]. *)
Fixpoint run (env : Env) (fuel : nat) (horizon : Z)
    (inputs : list (Z * Input)) (s : State) : State :=
  match fuel with
  | O => s
  | S fuel' =>
      match inputs, earliest (timers s) with
      | [], None => s
      | [], Some t =>
          if due t <=? horizon then run env fuel' horizon [] (dispatch env t s) else s
      | (at_, i) :: rest, None =>
          if at_ <=? horizon then run env fuel' horizon rest (input at_ i s) else s
      | (at_, i) :: rest, Some t =>
          if at_ <? due t then
            if at_ <=? horizon then run env fuel' horizon rest (input at_ i s) else s
          else
            if due t <=? horizon then run env fuel' horizon inputs (dispatch env t s)
            else s
      end
  end.

(** The queue is empty and no input is left: nothing can happen any more. *)
Definition quiescent (inputs : list (Z * Input)) (s : State) : bool :=
  match inputs, timers s with [], [] => true | _, _ => false end.

(** A run with every pause equal to [p] and the 0.5 s exit animation. *)
Definition constEnv (p : Z) : Env := mkEnv (fun _ => p) 500.

Definition timesCalled (s : State) : nat := List.length (calls s).

(** *** Observations of a whole run *)

(** A run from the mount to instant 20000, by which every run considered
    below has come to rest. *)
Definition runToEnd (env : Env) (inputs : list (Z * Input)) : State :=
  run env 400 20000 inputs mount.

(** The prop was called exactly once, at instant [t]. *)
Definition calledOnceAt (t : Z) (s : State) : bool :=
  match calls s with
  | [(u, _)] => Z.eqb u t
  | _ => false
  end.

(** No skip, no parent render, every pause equal to [p]. *)
Definition undisturbed_check (p : Z) : bool :=
  let s := runToEnd (constEnv p) [] in
  quiescent [] s && calledOnceAt (300 + 2032 + 6 * p + 400 + 600 + 800) s.

(** One click on the skip button at instant [t], every pause 100 ms. *)
Definition skip_check (t : Z) : bool :=
  let s := runToEnd (constEnv 100) [(t, ClickSkip)] in
  quiescent [] s && calledOnceAt (t + 300) s.

(** A stage driver that never gets past its first pause. *)
Definition stalledEnv : Env := mkEnv (fun _ => 1000000) 500.

(** [App] re-renders every 500 ms from instant 3400 on (sixteen times). *)
Definition rendersEvery500 : list (Z * Input) :=
  map (fun k => (3400 + 500 * Z.of_nat k, ParentRender)) (seq 0 16).

End Preloader.

(** ** Preloader: the arithmetic of a stage in binary64

    [Preloader] above keeps the accumulator [currentProgress] as an exact
    rational.  The number of interval firings a stage needs depends on the
    last bit of its sums, so it is computed here for a number format whose
    operations round with [fl]: [Binary64.round] for the doubles of the
    program, [exact] for the rationals of [Preloader]. *)

Module StageArithmetic.

Import Preloader.

(** [const increment = (stage.target - currentProgress) / (stage.duration / 16);] *)
Definition increment (fl : Q -> Q) (st : Stage) (currentProgress : Q) : Q :=
  fl (fl (inject_Z (target st) - currentProgress) / fl (inject_Z (duration st) / 16)).

(** The number of firings of a stage's interval up to and including the one
    that reaches the target.
<<
    currentProgress += increment;
    if (currentProgress >= stage.target) { currentProgress = stage.target; ... }
>> *)
Fixpoint ticksToTarget (fl : Q -> Q) (fuel : nat) (stageTarget : Z)
    (increment currentProgress : Q) : option nat :=
  match fuel with
  | O => None
  | S fuel' =>
      let cp := fl (currentProgress + increment) in
      if Qlt_le_dec cp (inject_Z stageTarget)
      then option_map S (ticksToTarget fl fuel' stageTarget increment cp)
      else Some 1%nat
  end.

(** The stages in turn: the firing that reaches a target stores the target
    in [currentProgress], and the next stage starts from there. *)
Fixpoint stageTicks (fl : Q -> Q) (fuel : nat) (sts : list Stage) (currentProgress : Q)
    : list (option nat) :=
  match sts with
  | [] => []
  | st :: rest =>
      ticksToTarget fl fuel (target st) (increment fl st currentProgress) currentProgress
      :: stageTicks fl fuel rest (inject_Z (target st))
  end.

Definition exact (x : Q) : Q := x.

(** The interval time of a list of tick counts: 16 ms a firing. *)
Definition intervalTime (counts : list (option nat)) : Z :=
  fold_right (fun c acc => match c with
                           | Some n => (16 * Z.of_nat n + acc)%Z
                           | None => acc
                           end) 0%Z counts.

End StageArithmetic.

(** ** Binary64 rounding against Rocq's primitive floats

    The sums of the counter and of a preloader stage, once on primitive
    binary64 floats and once on rationals rounded with [Binary64.round]. *)

Module Binary64Check.

Import PrimFloat.

(** The rational a finite primitive float stands for. *)
Definition ofFloat (f : float) : option Q :=
  match FloatOps.Prim2SF f with
  | SpecFloat.S754_zero _ => Some 0
  | SpecFloat.S754_finite s m e =>
      let v := inject_Z (Zpos m) * Binary64.pow2 e in Some (if s then - v else v)
  | _ => None
  end.

(** [n] times [c += inc], on primitive floats and on rounded rationals. *)
Fixpoint floatSums (inc : float) (n : nat) (c : float) : list float :=
  match n with
  | O => []
  | S k => let c' := (c + inc)%float in c' :: floatSums inc k c'
  end.

Fixpoint roundedSums (inc : Q) (n : nat) (c : Q) : list Q :=
  match n with
  | O => []
  | S k => let c' := Binary64.round (c + inc) in c' :: roundedSums inc k c'
  end.

Definition sameValues (fs : list float) (qs : list Q) : bool :=
  Nat.eqb (List.length fs) (List.length qs)
  && forallb (fun p => match ofFloat (fst p) with
                       | Some q => Qeq_bool q (snd p)
                       | None => false
                       end) (combine fs qs).

(** The sums of the counter for a target, both ways. *)
Definition counterAgrees (valueF : float) (value : Q) (n : nat) : bool :=
  sameValues (floatSums (valueF / 60)%float n 0%float)
             (roundedSums (AnimatedCounter.increment value) n 0).

(** The sums of a preloader stage, both ways. *)
Definition stageAgrees (targetF startF durationF : float) (st : Preloader.Stage)
    (start : Q) (n : nat) : bool :=
  sameValues (floatSums ((targetF - startF) / (durationF / 16))%float n startF)
             (roundedSums (StageArithmetic.increment Binary64.round st start) n start).

(** The four targets of the page, the smallest positive double, and the six
    stages of the preloader. *)
Definition checks : list bool :=
  [ counterAgrees 6 6 61;
    counterAgrees 50 50 61;
    counterAgrees 10000 10000 61;
    counterAgrees 200 200 61;
    counterAgrees 0x1p-1074 (Binary64.pow2 (-1074)) 5;
    stageAgrees 15 0 200 (Preloader.mkStage 15 200) 0 13;
    stageAgrees 35 15 400 (Preloader.mkStage 35 400) 15 25;
    stageAgrees 55 35 300 (Preloader.mkStage 55 300) 35 19;
    stageAgrees 75 55 500 (Preloader.mkStage 75 500) 55 32;
    stageAgrees 90 75 400 (Preloader.mkStage 90 400) 75 26;
    stageAgrees 100 90 200 (Preloader.mkStage 100 200) 90 13 ].

End Binary64Check.

(** ** Hero: pointer parallax and the scroll listener over time
    (function [HeroSection]) *)

Module HeroPointer.

(** [const [mousePosition, setMousePosition] = useState({ x: 0.5, y: 0.5 })] *)
Record MousePosition := mkMouse { x : Q; y : Q }.

Definition initialMouse : MousePosition := mkMouse (1 # 2) (1 # 2).

(** [handleMouseMove]:
    [x = e.clientX / window.innerWidth], [y = e.clientY / window.innerHeight]. *)
Definition handleMouseMove (clientX clientY innerWidth innerHeight : Q) : MousePosition :=
  mkMouse (clientX / innerWidth) (clientY / innerHeight).

(** [const mouseOffsetX = (mousePosition.x - 0.5) * 10;] *)
Definition mouseOffsetX (m : MousePosition) : Q := (x m - (1 # 2)) * 10.

(** [const mouseOffsetY = (mousePosition.y - 0.5) * 5;] *)
Definition mouseOffsetY (m : MousePosition) : Q := (y m - (1 # 2)) * 5.

(** The 3D canvas layer:
    [translate(${-mouseOffsetX * 0.5}px, ${-mouseOffsetY * 0.5}px)]. *)
Definition canvasTranslateX (m : MousePosition) : Q := - mouseOffsetX m * (1 # 2).
Definition canvasTranslateY (m : MousePosition) : Q := - mouseOffsetY m * (1 # 2).

(** The content layer: [translateX(${mouseOffsetX}px)]. *)
Definition contentTranslateX (m : MousePosition) : Q := mouseOffsetX m.

(** The [scrollY] cell after a sequence of scroll events (the successive
    values of [window.scrollY], oldest first), the viewport height fixed. *)
Definition scrollAll (viewportHeight : Q) (events : list Q) (scrollY : Q) : Q :=
  fold_left (fun stored w => Hero.handleScroll viewportHeight w stored) events scrollY.

(** The last element of [events] below [viewportHeight], [d] if there is none. *)
Definition lastBelow (viewportHeight : Q) (events : list Q) (d : Q) : Q :=
  last (filter (fun w => if Qlt_le_dec w viewportHeight then true else false) events) d.

End HeroPointer.

(** ** Navigation: active section (effect "2.3") *)

Module ActiveSection.

(** [const sections = ['divisions', 'ecosystem', 'impact', 'about', 'careers'];] *)
Definition sections : list string :=
  [ "divisions"; "ecosystem"; "impact"; "about"; "careers" ]%string.

(** What the callback reads of an [IntersectionObserverEntry]. *)
Record Entry := mkEntry {
  targetId : string;          (* entry.target.id *)
  isIntersecting : bool
}.

(** [observerCallback]: the value of [activeSection] once the batched
    [setActiveSection] calls of one callback are committed.
<<
    entries.forEach((entry) => {
      if (entry.isIntersecting) { setActiveSection(entry.target.id); }
    });
>> *)
Definition observerCallback (entries : list Entry) (activeSection : string) : string :=
  fold_left (fun active e => if isIntersecting e then targetId e else active)
    entries activeSection.

(** [useState<string>('')] *)
Definition initial : string := EmptyString.

(** A sequence of observer callbacks, oldest first. *)
Definition observeAll (batches : list (list Entry)) (activeSection : string) : string :=
  fold_left (fun active entries => observerCallback entries active) batches activeSection.

End ActiveSection.

(** ** Navigation: keyboard handler of the mobile menu (effect "2.6") *)

Module FocusTrap.

(** The fields of the [KeyboardEvent] the handler reads. *)
Record KeyboardEvent := mkKey {
  key : string;
  shiftKey : bool
}.

(** The part of the document the handler reads: the focusable descendants
    of [#mobile-nav] in document order ([None] when the element is not in
    the document), and [document.activeElement].  Elements are named by
    numbers. *)
Record Dom := mkDom {
  mobileNav : option (list nat);
  activeElement : option nat
}.

(** What one run of the handler did. *)
Record Outcome := mkOutcome {
  closeMenus : bool;            (* setMobileOpen(false); setMegaMenuOpen(false) *)
  defaultPrevented : bool;      (* e.preventDefault() *)
  focused : option nat          (* the element whose [focus()] was called *)
}.

Definition sameElement (a : option nat) (b : nat) : bool :=
  match a with Some i => Nat.eqb i b | None => false end.

(** [handleKeyDown]
<<
    if (e.key === 'Escape') { setMobileOpen(false); setMegaMenuOpen(false); }
    if (mobileOpen && e.key === 'Tab') {
      const mobileMenu = document.getElementById('mobile-nav');
      if (!mobileMenu) return;
      const focusableElements = mobileMenu.querySelectorAll<HTMLElement>(...);
      if (focusableElements.length === 0) return;
      const firstElement = focusableElements[0];
      const lastElement = focusableElements[focusableElements.length - 1];
      if (e.shiftKey && document.activeElement === firstElement) {
        e.preventDefault(); lastElement.focus();
      } else if (!e.shiftKey && document.activeElement === lastElement) {
        e.preventDefault(); firstElement.focus();
      }
    }
>> *)
Definition handleKeyDown (mobileOpen : bool) (dom : Dom) (e : KeyboardEvent) : Outcome :=
  let esc := String.eqb (key e) "Escape" in
  if mobileOpen && String.eqb (key e) "Tab" then
    match mobileNav dom with
    | None => mkOutcome esc false None
    | Some focusableElements =>
        match focusableElements with
        | [] => mkOutcome esc false None
        | firstElement :: _ =>
            let lastElement := last focusableElements firstElement in
            if shiftKey e && sameElement (activeElement dom) firstElement
            then mkOutcome esc true (Some lastElement)
            else if negb (shiftKey e) && sameElement (activeElement dom) lastElement
            then mkOutcome esc true (Some firstElement)
            else mkOutcome esc false None
        end
    end
  else mkOutcome esc false None.

(** One press of Tab ([shift = false]) or Shift+Tab with the mobile menu
    open: the handler runs first; when it did not prevent the default action
    the browser moves the focus itself, to [browserDefault shift a] from the
    focused element [a]. *)
Definition pressTab (browserDefault : bool -> nat -> nat) (focusableElements : list nat)
    (active : nat) (shift : bool) : nat :=
  let o := handleKeyDown true (mkDom (Some focusableElements) (Some active))
             (mkKey "Tab" shift) in
  match focused o with
  | Some target => target
  | None => if defaultPrevented o then active else browserDefault shift active
  end.

Definition pressTabs (browserDefault : bool -> nat -> nat) (focusableElements : list nat)
    (active : nat) (shifts : list bool) : nat :=
  fold_left (pressTab browserDefault focusableElements) shifts active.

(** Sequential focus navigation inside one list of elements, used to
    exercise [pressTab]: the neighbour in document order, the element itself
    at the ends. *)
Fixpoint nextIn (l : list nat) (a : nat) : nat :=
  match l with
  | u :: ((v :: _) as rest) => if Nat.eqb u a then v else nextIn rest a
  | _ => a
  end.

Definition prevIn (l : list nat) (a : nat) : nat := nextIn (rev l) a.

End FocusTrap.

(** ** Navigation: hover intent of the mega menu
    ([handleDivisionsMouseEnter] ... [handleMegaMenuMouseLeave]) *)

Module MegaMenuHover.

Local Open Scope Z_scope.

(** The two closures given to [setTimeout]:
    [() => setMegaMenuOpen(true)] and [() => setMegaMenuOpen(false)]. *)
Inductive Action := OpenMenu | CloseMenu.

Record Timer := mkTimer {
  id : nat;
  due : Z;
  action : Action
}.

Record State := mkState {
  megaMenuOpen : bool;
  megaMenuTimeoutRef : option nat;      (* megaMenuTimeoutRef.current *)
  timers : list Timer;                  (* the browser's pending timers *)
  nextId : nat
}.

Definition initial : State := mkState false None [] O.

(** [clearTimeout(h)] *)
Definition clearTimeout (h : nat) (s : State) : State :=
  mkState (megaMenuOpen s) (megaMenuTimeoutRef s)
    (filter (fun t => negb (Nat.eqb (id t) h)) (timers s)) (nextId s).

(** [if (megaMenuTimeoutRef.current) clearTimeout(megaMenuTimeoutRef.current);] *)
Definition clearRef (s : State) : State :=
  match megaMenuTimeoutRef s with
  | Some h => clearTimeout h s
  | None => s
  end.

(** [megaMenuTimeoutRef.current = setTimeout(action, delay)] at instant [at_]. *)
Definition armRef (a : Action) (delay at_ : Z) (s : State) : State :=
  mkState (megaMenuOpen s) (Some (nextId s))
    (timers s ++ [mkTimer (nextId s) (at_ + delay) a]) (S (nextId s)).

(** Clears the pending timer, then opens after 150 ms. *)
Definition handleDivisionsMouseEnter (at_ : Z) (s : State) : State :=
  armRef OpenMenu 150 at_ (clearRef s).

(** Clears the pending timer, then closes after 300 ms. *)
Definition handleDivisionsMouseLeave (at_ : Z) (s : State) : State :=
  armRef CloseMenu 300 at_ (clearRef s).

(** Clears the pending timer; the ref keeps the stale handle. *)
Definition handleMegaMenuMouseEnter (at_ : Z) (s : State) : State := clearRef s.

(** Closes after 200 ms; nothing is cleared first. *)
Definition handleMegaMenuMouseLeave (at_ : Z) (s : State) : State :=
  armRef CloseMenu 200 at_ s.

(** [onClose={() => setMegaMenuOpen(false)}], called by [onMouseLeave] of the
    panel itself and by its Escape listener. *)
Definition onClose (s : State) : State :=
  mkState false (megaMenuTimeoutRef s) (timers s) (nextId s).

Definition fire (t : Timer) (s : State) : State :=
  mkState (match action t with OpenMenu => true | CloseMenu => false end)
    (megaMenuTimeoutRef s) (timers s) (nextId s).

Fixpoint earliest (ts : list Timer) : option Timer :=
  match ts with
  | [] => None
  | t :: rest =>
      match earliest rest with
      | None => Some t
      | Some u => if due u <? due t then Some u else Some t
      end
  end.

(** Let every timer due up to instant [upTo] fire, in order.  The callbacks
    register no timers, so the length of the queue bounds the work. *)
Fixpoint advanceN (n : nat) (upTo : Z) (s : State) : State :=
  match n with
  | O => s
  | S n' =>
      match earliest (timers s) with
      | Some t =>
          if due t <=? upTo
          then advanceN n' upTo (fire t (clearTimeout (id t) s))
          else s
      | None => s
      end
  end.

Definition advance (upTo : Z) (s : State) : State :=
  advanceN (List.length (timers s)) upTo s.

Inductive Event :=
| DivisionsEnter       (* pointer enters the Divisions trigger *)
| DivisionsLeave       (* pointer leaves the Divisions trigger *)
| MenuEnter            (* pointer enters the wrapper of the mega menu *)
| MenuLeave            (* pointer leaves the wrapper of the mega menu *)
| PanelLeave.          (* pointer leaves the panel, or Escape: onClose *)

Definition handle (s : State) (te : Z * Event) : State :=
  let s' := advance (fst te) s in
  match snd te with
  | DivisionsEnter => handleDivisionsMouseEnter (fst te) s'
  | DivisionsLeave => handleDivisionsMouseLeave (fst te) s'
  | MenuEnter => handleMegaMenuMouseEnter (fst te) s'
  | MenuLeave => handleMegaMenuMouseLeave (fst te) s'
  | PanelLeave => onClose s'
  end.

(** The state at [instant] of a pointer session: the events up to that
    instant have been handled and every timer due by then has fired. *)
Definition stateAt (events : list (Z * Event)) (instant : Z) : State :=
  advance instant
    (fold_left handle (filter (fun te => fst te <=? instant) events) initial).

(** Hovering the trigger and leaving it again, once per pair of instants. *)
Definition hoverPairs (pairs : list (Z * Z)) : list (Z * Event) :=
  flat_map (fun p => [(fst p, DivisionsEnter); (snd p, DivisionsLeave)]) pairs.

(** At most one timer is pending, and it is the one the ref holds. *)
Definition debounced (s : State) : Prop :=
  timers s = [] \/
  exists t, timers s = [t] /\ megaMenuTimeoutRef s = Some (id t).

(** The pointer can leave the wrapper only after entering it: in a session
    every [MenuLeave] follows a [MenuEnter] with no event of the trigger in
    between ([inside] tells whether the pointer is over the wrapper). *)
Fixpoint pointerConsistent (inside : bool) (events : list Event) : bool :=
  match events with
  | [] => true
  | MenuEnter :: rest => pointerConsistent true rest
  | PanelLeave :: rest => pointerConsistent inside rest
  | MenuLeave :: rest => inside && pointerConsistent false rest
  | _ :: rest => pointerConsistent false rest
  end.

(** Nothing is open at [instant], and what is pending is the ref's timer,
    which does not open the menu by [instant]. *)
Definition calm (instant : Z) (s : State) : Prop :=
  megaMenuOpen s = false
  /\ (timers s = [] \/
      exists t, timers s = [t] /\ megaMenuTimeoutRef s = Some (id t)
                /\ (action t = OpenMenu -> instant < due t)).

End MegaMenuHover.

(** ** Search overlay: suggestions (function [SearchOverlay]) *)

Module Search.

(** One entry of the [divisions] table. *)
Record Division := mkDivision {
  id : string;
  name : string;
  tagline : string;
  description : string;
  color : string
}.

Definition divisions : list Division :=
  [ mkDivision "tech" "KRONOS TECH" "Innovation Engine"
      "Pioneering next-generation technology solutions that redefine industry standards."
      "#0071E3";
    mkDivision "media" "KRONOS MEDIA" "Story Architects"
      "Crafting compelling narratives that captivate global audiences across every platform."
      "#E30B5C";
    mkDivision "labs" "KRONOS LABS" "Research Frontier"
      "Where breakthrough discoveries transform into world-changing innovations."
      "#00A862";
    mkDivision "studios" "KRONOS STUDIOS" "Creative Force"
      "Design excellence that sets the global standard for visual communication."
      "#8B5CF6";
    mkDivision "ventures" "KRONOS VENTURES" "Growth Catalyst"
      "Strategic investments that accelerate tomorrow's industry leaders."
      "#F59E0B";
    mkDivision "academy" "KRONOS ACADEMY" "Knowledge Hub"
      "Empowering the next generation of visionary leaders and innovators."
      "#06B6D4" ]%string.

(** [String.prototype.toLowerCase] on one ASCII character: the letters [A-Z]
    move to [a-z], every other character stays. *)
Definition lowerChar (c : Ascii.ascii) : Ascii.ascii :=
  let n := Ascii.nat_of_ascii c in
  if Nat.leb 65 n && Nat.leb n 90 then Ascii.ascii_of_nat (n + 32) else c.

Fixpoint toLowerCase (s : string) : string :=
  match s with
  | EmptyString => EmptyString
  | String c rest => String (lowerChar c) (toLowerCase rest)
  end.

(** [s.includes(q)]: [q] occurs in [s] as a contiguous substring. *)
Fixpoint includes (s q : string) : bool :=
  if String.prefix q s then true
  else match s with
       | EmptyString => false
       | String _ rest => includes rest q
       end.

(** A string of ASCII characters only.  On such strings the model of
    [toLowerCase] above is the JavaScript one. *)
Fixpoint isAscii (s : string) : bool :=
  match s with
  | EmptyString => true
  | String c rest => Nat.ltb (Ascii.nat_of_ascii c) 128 && isAscii rest
  end.

Definition matches (query : string) (d : Division) : bool :=
  includes (toLowerCase (name d)) (toLowerCase query)
  || includes (toLowerCase (tagline d)) (toLowerCase query).

(** The result list; the empty query is falsy.
<<
    const suggestions = query
      ? divisions.filter(d =>
          d.name.toLowerCase().includes(query.toLowerCase()) ||
          d.tagline.toLowerCase().includes(query.toLowerCase()))
      : [];
>> *)
Definition suggestions (query : string) : list Division :=
  match query with
  | EmptyString => []
  | _ => filter (matches query) divisions
  end.

End Search.

(** ** Body scroll lock: sessions that never toggle the mobile menu *)

Module BodyLockSingle.

Import BodyLock.

(** Only the search overlay is in use. *)
Definition searchOnly (s : State) : Prop :=
  mobileOpen s = false /\ locked s = searchOpen s.

End BodyLockSingle.

(** * Properties *)

(** ** Arithmetic of the [Math] helpers *)

Module JsMathFacts.

Import JsMath.

Lemma min_le_l a b : min a b <= a.
Proof. unfold min. destruct (Qlt_le_dec b a); lra. Qed.

Lemma min_le_r a b : min a b <= b.
Proof. unfold min. destruct (Qlt_le_dec b a); lra. Qed.

Lemma min_mono_l a a' b : a <= a' -> min a b <= min a' b.
Proof. unfold min. destruct (Qlt_le_dec b a), (Qlt_le_dec b a'); lra. Qed.

Lemma min_nonneg a b : 0 <= a -> 0 <= b -> 0 <= min a b.
Proof. unfold min. destruct (Qlt_le_dec b a); lra. Qed.

Lemma max_nonneg_id a : 0 <= a -> max 0 a == a.
Proof. unfold max. destruct (Qlt_le_dec 0 a); lra. Qed.

(** On a non-negative argument the lower bound of [clamp] is idle: the
    source's [Math.min(x, 1)] is the specification's [clamp(x, 0, 1)]. *)
Lemma clamp01_nonneg x : 0 <= x -> clamp x 0 1 == min x 1.
Proof.
  intros Hx. unfold clamp. apply max_nonneg_id. apply min_nonneg; lra.
Qed.

Lemma clamp01_unit x : 0 <= x -> x <= 1 -> clamp x 0 1 == x.
Proof.
  intros H0 H1. rewrite clamp01_nonneg by exact H0.
  unfold min. destruct (Qlt_le_dec 1 x); lra.
Qed.

Lemma floor_le a : floor a <= a.
Proof. apply Qfloor_le. Qed.

Lemma floor_mono a b : a <= b -> floor a <= floor b.
Proof.
  intros H. unfold floor. rewrite <- Zle_Qle. now apply Qfloor_resp_le.
Qed.

Lemma floor_nonneg a : 0 <= a -> 0 <= floor a.
Proof.
  intros H. change 0 with (floor 0). now apply floor_mono.
Qed.

Lemma div_nonneg a d : 0 <= a -> 0 < d -> 0 <= a / d.
Proof.
  intros Ha Hd. unfold Qdiv.
  apply Qmult_le_0_compat; [exact Ha|].
  apply Qinv_le_0_compat. lra.
Qed.

Lemma div_mono a b d : a <= b -> 0 < d -> a / d <= b / d.
Proof.
  intros Hab Hd. unfold Qdiv.
  apply Qmult_le_compat_r; [exact Hab|].
  apply Qinv_le_0_compat. lra.
Qed.

Lemma div_le_1 a d : 0 < d -> a <= d -> a / d <= 1.
Proof.
  intros Hd Ha. apply Qle_shift_div_r; lra.
Qed.

End JsMathFacts.

(** ** Binary64 rounding *)

Module Binary64Facts.
Import Binary64.

Lemma pow2_pos k : 0 < pow2 k.
Proof. apply Qpower_0_lt. reflexivity. Qed.

Lemma pow2_plus a b : pow2 (a + b) == pow2 a * pow2 b.
Proof. apply Qpower_plus. discriminate. Qed.

Lemma pow2_lt a b : (a < b)%Z -> pow2 a < pow2 b.
Proof. intros H. apply Qpower_lt_compat_l; [exact H | reflexivity]. Qed.

Lemma pow2_le a b : (a <= b)%Z -> pow2 a <= pow2 b.
Proof. intros H. apply Qpower_le_compat_l; [exact H | discriminate]. Qed.

Lemma pow2_lt_inv a b : pow2 a < pow2 b -> (a < b)%Z.
Proof. intros H. apply (Qpower_lt_compat_l_inv 2); [exact H | reflexivity]. Qed.

Lemma pow2_Z k : (0 <= k)%Z -> pow2 k == inject_Z (2 ^ k).
Proof. intros H. unfold pow2. now rewrite Zpower_Qpower. Qed.

Lemma pow2_div a b : pow2 a / pow2 b == pow2 (a - b).
Proof.
  unfold Z.sub. rewrite pow2_plus. unfold pow2 at 4. rewrite Qpower_opp. reflexivity.
Qed.

(** Bracketing a positive integer by powers of two. *)
Lemma log2_bracket (n : Z) :
  (0 < n)%Z -> pow2 (Z.log2 n) <= inject_Z n < pow2 (Z.log2 n + 1).
Proof.
  intros Hn. destruct (Z.log2_spec n Hn) as [H1 H2].
  pose proof (Z.log2_nonneg n) as H0.
  rewrite !pow2_Z by lia. rewrite <- Zle_Qle, <- Zlt_Qlt.
  replace (Z.log2 n + 1)%Z with (Z.succ (Z.log2 n)) by lia. split; assumption.
Qed.

Lemma ilog2_spec x : 0 < x -> pow2 (ilog2 x) <= x < pow2 (ilog2 x + 1).
Proof.
  intros Hx. destruct x as [n d]. unfold ilog2. cbn [Qnum Qden].
  assert (Hn : (0 < n)%Z) by (unfold Qlt in Hx; cbn in Hx; lia).
  destruct (log2_bracket n Hn) as [Hn1 Hn2].
  destruct (log2_bracket (Zpos d) eq_refl) as [Hd1 Hd2].
  set (a := Z.log2 n) in *. set (b := Z.log2 (Zpos d)) in *.
  assert (Ex : n # d == inject_Z n / inject_Z (Zpos d)) by apply Qmake_Qdiv.
  assert (Hdpos : 0 < inject_Z (Zpos d)) by reflexivity.
  pose proof (pow2_pos a) as Pa. pose proof (pow2_pos b) as Pb.
  pose proof (pow2_pos (a + 1)) as Pa1. pose proof (pow2_pos (b + 1)) as Pb1.
  (* n/d < 2^(a+1) / 2^b  and  2^a / 2^(b+1) < n/d *)
  assert (Hup : n # d < pow2 (a - b + 1)).
  { rewrite Ex. replace (a - b + 1)%Z with (a + 1 - b)%Z by lia. rewrite <- pow2_div.
    apply Qlt_shift_div_r; [exact Hdpos|].
    apply Qlt_le_trans with (pow2 (a + 1)); [exact Hn2|].
    assert (E : pow2 (a + 1) == pow2 (a + 1) / pow2 b * pow2 b) by (field; lra).
    rewrite E at 1. apply Qmult_le_l; [|exact Hd1].
    apply Qlt_shift_div_l; lra. }
  assert (Hlow : pow2 (a - b - 1) < n # d).
  { rewrite Ex. replace (a - b - 1)%Z with (a - (b + 1))%Z by lia. rewrite <- pow2_div.
    apply Qlt_shift_div_l; [exact Hdpos|].
    apply Qlt_le_trans with (pow2 a); [|exact Hn1].
    assert (E : pow2 a == pow2 a / pow2 (b + 1) * pow2 (b + 1)) by (field; lra).
    rewrite E at 2. apply Qmult_lt_l; [|exact Hd2].
    apply Qlt_shift_div_l; lra. }
  destruct (Qle_bool (pow2 (a - b)) (n # d)) eqn:Hb.
  - apply Qle_bool_iff in Hb. split; assumption.
  - assert (Hlt : n # d < pow2 (a - b)).
    { apply Qnot_le_lt. intros H. apply Qle_bool_iff in H. congruence. }
    replace (a - b - 1 + 1)%Z with (a - b)%Z by lia. split; [apply Qlt_le_weak|]; assumption.
Qed.

Lemma ilog2_unique x k : 0 < x -> pow2 k <= x < pow2 (k + 1) -> ilog2 x = k.
Proof.
  intros Hx [H1 H2]. destruct (ilog2_spec x Hx) as [S1 S2].
  assert (A : (ilog2 x < k + 1)%Z) by (apply pow2_lt_inv; lra).
  assert (B : (k < ilog2 x + 1)%Z) by (apply pow2_lt_inv; lra).
  lia.
Qed.

Lemma ilog2_mono x y : 0 < x -> x <= y -> (ilog2 x <= ilog2 y)%Z.
Proof.
  intros Hx Hxy. destruct (ilog2_spec x Hx) as [S1 _].
  destruct (ilog2_spec y) as [_ T2]; [lra|].
  assert (A : (ilog2 x < ilog2 y + 1)%Z) by (apply pow2_lt_inv; lra). lia.
Qed.

Lemma ilog2_comp x y : 0 < x -> x == y -> ilog2 x = ilog2 y.
Proof.
  intros Hx E. symmetry. apply ilog2_unique; [lra|].
  rewrite <- E. now apply ilog2_spec.
Qed.


(** *** Rounding to the nearest integer, ties to even *)

Lemma rne_bounds q : (Qfloor q <= rne q <= Qfloor q + 1)%Z.
Proof.
  unfold rne. destruct (Qcompare _ _); [destruct (Z.even _)| |]; lia.
Qed.

Lemma rne_Z z : rne (inject_Z z) = z.
Proof.
  unfold rne. rewrite Qfloor_Z.
  assert (E : Qcompare (inject_Z z - inject_Z z) (1 # 2) = Lt).
  { apply Qlt_alt. ring_simplify (inject_Z z - inject_Z z). reflexivity. }
  now rewrite E.
Qed.

Lemma rne_comp q q' : q == q' -> rne q = rne q'.
Proof.
  intros E. unfold rne. rewrite (Qfloor_comp _ _ E).
  assert (E' : q - inject_Z (Qfloor q') == q' - inject_Z (Qfloor q'))
    by (unfold Qminus; apply Qplus_comp; [exact E | reflexivity]).
  now rewrite (Qcompare_comp _ _ E' (1 # 2) (1 # 2) (Qeq_refl _)).
Qed.

Lemma rne_mono q q' : q <= q' -> (rne q <= rne q')%Z.
Proof.
  intros Hle. pose proof (Qfloor_resp_le q q' Hle) as Hf.
  destruct (Z.eq_dec (Qfloor q) (Qfloor q')) as [E|NE].
  - unfold rne. rewrite <- E. set (f := Qfloor q).
    destruct (Qcompare_spec (q - inject_Z f) (1 # 2)) as [H|H|H];
      destruct (Qcompare_spec (q' - inject_Z f) (1 # 2)) as [H'|H'|H'];
      try destruct (Z.even f); try lia; lra.
  - pose proof (rne_bounds q). pose proof (rne_bounds q'). lia.
Qed.

Lemma rne_ge a q : inject_Z a <= q -> (a <= rne q)%Z.
Proof. intros H. rewrite <- (rne_Z a). now apply rne_mono. Qed.

Lemma rne_le a q : q <= inject_Z a -> (rne q <= a)%Z.
Proof. intros H. rewrite <- (rne_Z a). now apply rne_mono. Qed.

(** *** Rounding a positive rational *)

Lemma exponent_emin x : (emin <= exponent x)%Z.
Proof. unfold exponent. lia. Qed.

Lemma exponent_comp x y : 0 < x -> x == y -> exponent x = exponent y.
Proof. intros Hx E. unfold exponent. now rewrite (ilog2_comp x y Hx E). Qed.

Lemma roundPos_comp x y : 0 < x -> x == y -> roundPos x == roundPos y.
Proof.
  intros Hx E. unfold roundPos. rewrite <- (exponent_comp x y Hx E).
  assert (E' : x / pow2 (exponent x) == y / pow2 (exponent x))
    by (unfold Qdiv; apply Qmult_comp; [exact E | reflexivity]).
  now rewrite (rne_comp _ _ E').
Qed.

Lemma scaled_lt x : 0 < x -> x / pow2 (exponent x) < pow2 53.
Proof.
  intros Hx. destruct (ilog2_spec x Hx) as [_ H2].
  pose proof (pow2_pos (exponent x)) as Pe.
  apply Qlt_shift_div_r; [exact Pe|].
  rewrite <- pow2_plus. apply Qlt_le_trans with (pow2 (ilog2 x + 1)); [exact H2|].
  apply pow2_le. unfold exponent. lia.
Qed.

Lemma scaled_ge x :
  0 < x -> (emin < exponent x)%Z -> pow2 52 <= x / pow2 (exponent x).
Proof.
  intros Hx He. destruct (ilog2_spec x Hx) as [H1 _].
  pose proof (pow2_pos (exponent x)) as Pe.
  apply Qle_shift_div_l; [exact Pe|].
  rewrite <- pow2_plus. apply Qle_trans with (pow2 (ilog2 x)); [|exact H1].
  apply pow2_le. unfold exponent in *. lia.
Qed.

Lemma roundPos_nonneg x : 0 < x -> 0 <= roundPos x.
Proof.
  intros Hx. unfold roundPos. pose proof (pow2_pos (exponent x)) as Pe.
  apply Qmult_le_0_compat; [|lra].
  change 0 with (inject_Z 0). rewrite <- Zle_Qle. apply rne_ge.
  apply Qle_shift_div_l; [exact Pe|]. change (inject_Z 0) with 0. lra.
Qed.

(** The mantissa of a rounded positive number has at most 53 bits. *)
Lemma mantissa_bounds x :
  0 < x -> (0 <= rne (x / pow2 (exponent x)) <= 2 ^ 53)%Z.
Proof.
  intros Hx. pose proof (pow2_pos (exponent x)) as Pe. split.
  - apply rne_ge. apply Qle_shift_div_l; [exact Pe|]. change (inject_Z 0) with 0. lra.
  - apply rne_le. pose proof (scaled_lt x Hx) as H.
    rewrite (pow2_Z 53) in H by lia. lra.
Qed.

(** Every [m * 2^e] with at most 53 bits of mantissa and [e >= emin] is a
    value of the format: rounding leaves it alone. *)
Lemma roundPos_dyadic m e :
  (0 < m <= 2 ^ 53)%Z -> (emin <= e)%Z ->
  roundPos (inject_Z m * pow2 e) == inject_Z m * pow2 e.
Proof.
  intros Hm He. set (x := inject_Z m * pow2 e).
  pose proof (pow2_pos e) as Pe.
  assert (Hmq : 0 < inject_Z m) by (change 0 with (inject_Z 0); rewrite <- Zlt_Qlt; lia).
  assert (Hx : 0 < x) by (unfold x; apply Qmult_lt_0_compat; assumption).
  destruct (log2_bracket m) as [L1 L2]; [lia|].
  assert (Hlog : ilog2 x = (Z.log2 m + e)%Z).
  { apply ilog2_unique; [exact Hx|]. unfold x.
    replace (Z.log2 m + e + 1)%Z with (Z.log2 m + 1 + e)%Z by lia.
    rewrite (pow2_plus (Z.log2 m) e), (pow2_plus (Z.log2 m + 1) e). split.
    - apply Qmult_le_compat_r; lra.
    - apply Qmult_lt_r; assumption. }
  assert (Hl53 : (Z.log2 m <= 53)%Z).
  { pose proof (Z.log2_le_mono m (2 ^ 53)) as H.
    change (Z.log2 (2 ^ 53)) with 53%Z in H. lia. }
  unfold roundPos. unfold exponent. rewrite Hlog.
  set (e' := Z.max emin (Z.log2 m + e - 52)).
  assert (He' : (emin <= e')%Z) by (unfold e'; lia).
  destruct (Z.le_gt_cases e' e) as [Hle|Hgt].
  - (* the mantissa fits as it is *)
    assert (Esc : x / pow2 e' == inject_Z (m * 2 ^ (e - e'))).
    { unfold x. rewrite inject_Z_mult, <- pow2_Z by lia.
      rewrite <- pow2_div. field. pose proof (pow2_pos e'). lra. }
    rewrite (rne_comp _ _ Esc), rne_Z.
    rewrite inject_Z_mult, <- pow2_Z by lia. unfold x.
    rewrite <- pow2_div. field. pose proof (pow2_pos e'). lra.
  - (* m = 2^53: one exponent up *)
    assert (Hlog53 : Z.log2 m = 53%Z) by (unfold e' in Hgt; lia).
    assert (Em : m = (2 ^ 53)%Z).
    { destruct (Z.log2_spec m) as [S1 _]; [lia|]. rewrite Hlog53 in S1. lia. }
    assert (Ee : e' = (e + 1)%Z) by (unfold e'; lia).
    assert (Esc : x / pow2 e' == inject_Z (2 ^ 52)).
    { unfold x. rewrite Em, Ee, <- !pow2_Z by lia.
      rewrite (pow2_plus e 1). change (pow2 1) with 2. change (pow2 53) with (pow2 52 * 2).
      field. lra. }
    rewrite (rne_comp _ _ Esc), rne_Z. unfold x. rewrite Em, Ee, <- !pow2_Z by lia.
    rewrite (pow2_plus e 1). change (pow2 1) with 2. change (pow2 53) with (pow2 52 * 2).
    ring.
Qed.

Lemma roundPos_idem x :
  0 < x -> roundPos x == 0 \/ (0 < roundPos x /\ roundPos (roundPos x) == roundPos x).
Proof.
  intros Hx. destruct (mantissa_bounds x Hx) as [M0 M1].
  destruct (Z.eq_dec (rne (x / pow2 (exponent x))) 0) as [E|NE].
  - left. unfold roundPos. rewrite E. ring.
  - right. pose proof (pow2_pos (exponent x)) as Pe.
    assert (Hpos : 0 < roundPos x).
    { unfold roundPos. apply Qmult_lt_0_compat; [|exact Pe].
      change 0 with (inject_Z 0). rewrite <- Zlt_Qlt. lia. }
    split; [exact Hpos|].
    unfold roundPos at 2 3. apply roundPos_dyadic; [lia | apply exponent_emin].
Qed.

Lemma roundPos_mono x y : 0 < x -> x <= y -> roundPos x <= roundPos y.
Proof.
  intros Hx Hxy. assert (Hy : 0 < y) by lra.
  pose proof (ilog2_mono x y Hx Hxy) as Hl.
  assert (He : (exponent x <= exponent y)%Z) by (unfold exponent; lia).
  pose proof (pow2_pos (exponent x)) as Px. pose proof (pow2_pos (exponent y)) as Py.
  destruct (Z.eq_dec (exponent x) (exponent y)) as [E|NE].
  - unfold roundPos. rewrite <- E. apply Qmult_le_compat_r; [|lra].
    rewrite <- Zle_Qle. apply rne_mono. apply Qmult_le_compat_r; [exact Hxy|].
    apply Qinv_le_0_compat. lra.
  - assert (Hlt : (exponent x < exponent y)%Z) by lia.
    apply Qle_trans with (pow2 (exponent y + 52)).
    + unfold roundPos. destruct (mantissa_bounds x Hx) as [_ M1].
      apply Qle_trans with (inject_Z (2 ^ 53) * pow2 (exponent x)).
      * apply Qmult_le_compat_r; [|lra]. now rewrite <- Zle_Qle.
      * rewrite <- pow2_Z by lia. rewrite <- pow2_plus. apply pow2_le. lia.
    + unfold roundPos. rewrite (Z.add_comm (exponent y) 52), pow2_plus.
      apply Qmult_le_compat_r; [|lra].
      rewrite pow2_Z by lia. rewrite <- Zle_Qle. apply rne_ge.
      rewrite <- pow2_Z by lia. apply scaled_ge; [exact Hy|].
      pose proof (exponent_emin x). lia.
Qed.

(** *** Rounding any rational *)

Lemma round_zero : round 0 = 0.
Proof. reflexivity. Qed.

Lemma round_pos x : 0 < x -> round x = roundPos x.
Proof.
  intros H. unfold round. destruct (Qcompare_spec x 0); [lra | lra | reflexivity].
Qed.

Lemma round_neg x : x < 0 -> round x = - roundPos (- x).
Proof.
  intros H. unfold round. destruct (Qcompare_spec x 0); [lra | reflexivity | lra].
Qed.

Lemma round_eq0 x : x == 0 -> round x = 0.
Proof.
  intros H. unfold round. destruct (Qcompare_spec x 0); [reflexivity | lra | lra].
Qed.

Lemma round_comp x y : x == y -> round x == round y.
Proof.
  intros E. destruct (Qcompare_spec x 0) as [H|H|H].
  - rewrite (round_eq0 x H), (round_eq0 y) by (rewrite <- E; exact H). reflexivity.
  - rewrite (round_neg x H), (round_neg y) by (rewrite <- E; exact H).
    apply Qopp_comp. apply roundPos_comp; [lra | now rewrite E].
  - rewrite (round_pos x H), (round_pos y) by (rewrite <- E; exact H).
    now apply roundPos_comp.
Qed.

Lemma round_nonneg x : 0 <= x -> 0 <= round x.
Proof.
  intros Hx. destruct (Qcompare_spec x 0) as [H|H|H]; [|lra|].
  - rewrite (round_eq0 x H). lra.
  - rewrite (round_pos x H). now apply roundPos_nonneg.
Qed.

Lemma round_opp x : round (- x) == - round x.
Proof.
  destruct (Qcompare_spec x 0) as [H|H|H].
  - rewrite (round_eq0 x H), (round_eq0 (- x)) by lra. reflexivity.
  - rewrite (round_neg x H), (round_pos (- x)) by lra. ring.
  - rewrite (round_pos x H), (round_neg (- x)) by lra.
    apply Qopp_comp. apply roundPos_comp; [lra | ring].
Qed.

Lemma round_mono_nonneg x y : 0 <= x -> x <= y -> round x <= round y.
Proof.
  intros Hx Hxy. destruct (Qcompare_spec x 0) as [H|H|H]; [|lra|].
  - rewrite (round_eq0 x H). apply round_nonneg. lra.
  - rewrite (round_pos x H), (round_pos y) by lra. now apply roundPos_mono.
Qed.

(** Rounding is monotone. *)
Lemma round_mono x y : x <= y -> round x <= round y.
Proof.
  intros Hxy. destruct (Qlt_le_dec x 0) as [Hx|Hx].
  - destruct (Qlt_le_dec y 0) as [Hy|Hy].
    + assert (H : round (- y) <= round (- x)) by (apply round_mono_nonneg; lra).
      rewrite !round_opp in H. lra.
    + pose proof (round_nonneg y Hy). assert (H0 : 0 <= round (- x)) by (apply round_nonneg; lra).
      rewrite round_opp in H0. lra.
  - now apply round_mono_nonneg.
Qed.

Lemma round_idem_nonneg x : 0 <= x -> round (round x) == round x.
Proof.
  intros Hx. destruct (Qcompare_spec x 0) as [H|H|H]; [|lra|].
  - rewrite (round_eq0 x H). reflexivity.
  - rewrite (round_pos x H). destruct (roundPos_idem x H) as [E|[Hp E]].
    + rewrite (round_eq0 _ E). now rewrite E.
    + now rewrite (round_pos _ Hp).
Qed.

(** The values of the format are the fixed points of [round]. *)
Lemma round_idem x : round (round x) == round x.
Proof.
  destruct (Qlt_le_dec x 0) as [Hx|Hx]; [|now apply round_idem_nonneg].
  assert (H : round (round (- x)) == round (- x)) by (apply round_idem_nonneg; lra).
  rewrite (round_comp _ _ (round_opp x)) in H. rewrite !round_opp in H. lra.
Qed.

(** Integers of at most 53 bits are values of the format. *)
Lemma round_Z z : (0 <= z <= 2 ^ 53)%Z -> round (inject_Z z) == inject_Z z.
Proof.
  intros Hz. destruct (Z.eq_dec z 0) as [->|NE]; [reflexivity|].
  assert (Hp : 0 < inject_Z z) by (change 0 with (inject_Z 0); rewrite <- Zlt_Qlt; lia).
  rewrite (round_pos _ Hp).
  assert (E : inject_Z z == inject_Z z * pow2 0) by (change (pow2 0) with 1; ring).
  rewrite (roundPos_comp _ _ Hp E). rewrite roundPos_dyadic; [symmetry; exact E|lia|].
  unfold emin. lia.
Qed.

(** *** The relative error of a rounding in the normal range *)

Lemma rne_lower q : q - (1 # 2) <= inject_Z (rne q).
Proof.
  unfold rne. pose proof (Qfloor_le q) as Hf.
  destruct (Qcompare_spec (q - inject_Z (Qfloor q)) (1 # 2)) as [E|L|G].
  - destruct (Z.even (Qfloor q)).
    + lra.
    + rewrite inject_Z_plus. change (inject_Z 1) with 1. lra.
  - lra.
  - rewrite inject_Z_plus. change (inject_Z 1) with 1.
    pose proof (Qlt_floor q) as H. rewrite inject_Z_plus in H. change (inject_Z 1) with 1 in H. lra.
Qed.

Lemma rne_upper q : inject_Z (rne q) <= q + (1 # 2).
Proof.
  unfold rne. pose proof (Qfloor_le q) as Hf.
  destruct (Qcompare_spec (q - inject_Z (Qfloor q)) (1 # 2)) as [E|L|G].
  - destruct (Z.even (Qfloor q)).
    + lra.
    + rewrite inject_Z_plus. change (inject_Z 1) with 1. lra.
  - lra.
  - rewrite inject_Z_plus. change (inject_Z 1) with 1. lra.
Qed.

(** In the normal range the scaled number has its leading bit at position
    52, so the half unit lost by [rne] is at most [u] times the number. *)
Lemma normal_scaled x :
  pow2 (-1022) <= x ->
  let q := x / pow2 (exponent x) in
  0 < x /\ x == q * pow2 (exponent x) /\ (1 # 2) <= q * u.
Proof.
  intros Hx q. pose proof (pow2_pos (-1022)) as P.
  assert (Hp : 0 < x) by lra.
  pose proof (pow2_pos (exponent x)) as Pe.
  assert (Hl : (-1022 <= ilog2 x)%Z).
  { destruct (ilog2_spec x Hp) as [_ H2].
    assert (H : pow2 (-1022) < pow2 (ilog2 x + 1)) by lra.
    apply pow2_lt_inv in H. lia. }
  assert (He : exponent x = (ilog2 x - 52)%Z) by (unfold exponent, emin; lia).
  assert (Hq : pow2 52 <= q).
  { destruct (ilog2_spec x Hp) as [H1 _].
    apply Qle_shift_div_l; [exact Pe|].
    rewrite <- pow2_plus, He.
    replace (52 + (ilog2 x - 52))%Z with (ilog2 x) by lia. exact H1. }
  split; [exact Hp|]. split.
  - unfold q. rewrite Qmult_comm, Qmult_div_r; [reflexivity|].
    intros E0. rewrite E0 in Pe. discriminate.
  - assert (E : (1 # 2) == pow2 52 * u) by reflexivity.
    rewrite E. apply Qmult_le_compat_r; [exact Hq | discriminate].
Qed.

Lemma round_rel x : pow2 (-1022) <= x -> x * (1 - u) <= round x.
Proof.
  intros Hx. destruct (normal_scaled x Hx) as (Hp & Ex & Hh).
  rewrite (round_pos x Hp). unfold roundPos.
  pose proof (pow2_pos (exponent x)) as Pe.
  pose proof (rne_lower (x / pow2 (exponent x))) as Hr.
  set (q := x / pow2 (exponent x)) in *.
  rewrite Ex at 1.
  assert (E : q * pow2 (exponent x) * (1 - u) == q * (1 - u) * pow2 (exponent x)) by ring.
  rewrite E. apply Qmult_le_compat_r; lra.
Qed.

Lemma round_rel_upper x : pow2 (-1022) <= x -> round x <= x * (1 + u).
Proof.
  intros Hx. destruct (normal_scaled x Hx) as (Hp & Ex & Hh).
  rewrite (round_pos x Hp). unfold roundPos.
  pose proof (pow2_pos (exponent x)) as Pe.
  pose proof (rne_upper (x / pow2 (exponent x))) as Hr.
  set (q := x / pow2 (exponent x)) in *.
  rewrite Ex at 2.
  assert (E : q * pow2 (exponent x) * (1 + u) == q * (1 + u) * pow2 (exponent x)) by ring.
  rewrite E. apply Qmult_le_compat_r; lra.
Qed.

(** *** Two powers of two *)

Lemma pow2_1022_exact : round (pow2 (-1022)) == pow2 (-1022).
Proof.
  pose proof (pow2_pos (-1022)) as P.
  rewrite (round_pos _ P).
  assert (E : pow2 (-1022) == inject_Z 1 * pow2 (-1022))
    by (change (inject_Z 1) with 1; ring).
  rewrite (roundPos_comp _ _ P E).
  rewrite roundPos_dyadic; [symmetry; exact E | lia | unfold emin; lia].
Qed.

Lemma pow2_1016 : pow2 (-1016) == 64 * pow2 (-1022).
Proof.
  change (-1016)%Z with (6 + -1022)%Z. rewrite pow2_plus. reflexivity.
Qed.

(** *** Against primitive floats *)

(** On the sums of the counter and of the preloader stages [round] computes
    what the binary64 addition and division of the machine compute. *)
Lemma round_agrees_with_primitive_floats :
  forallb (fun b => b) Binary64Check.checks = true.
Proof. vm_compute. reflexivity. Qed.

End Binary64Facts.

(** ** Hero parallax *)

(** C2.  With a positive viewport height and offsets [0 <= y1 <= y2 <=
    viewportHeight], the hero's content opacity at [y1] is
    [1 - clamp(y1 / (viewportHeight * 0.7), 0, 1)], and the opacity at the
    larger offset [y2] is not larger than at [y1]. *)
Theorem hero_contentOpacity_clamp_monotone (viewportHeight y1 y2 : Q) :
  0 < viewportHeight -> 0 <= y1 -> y1 <= y2 -> y2 <= viewportHeight ->
  Hero.contentOpacity y1 viewportHeight
    == 1 - JsMath.clamp (y1 / (viewportHeight * (7 # 10))) 0 1
  /\ Hero.contentOpacity y2 viewportHeight <= Hero.contentOpacity y1 viewportHeight.
Proof.
  intros Hvh H0 H12 H2.
  assert (Hd : 0 < viewportHeight * (7 # 10)) by lra.
  unfold Hero.contentOpacity, Hero.progress. split.
  - rewrite JsMathFacts.clamp01_nonneg; [reflexivity|].
    apply JsMathFacts.div_nonneg; assumption.
  - pose proof (JsMathFacts.min_mono_l _ _ 1
                  (JsMathFacts.div_mono y1 y2 _ H12 Hd)) as Hm.
    lra.
Qed.

Lemma hero_contentOpacity_clamp_monotone_witness :
  Hero.contentOpacity 100 800 == 1 - JsMath.clamp (100 / (800 * (7 # 10))) 0 1
  /\ Hero.contentOpacity 400 800 <= Hero.contentOpacity 100 800.
Proof.
  apply (hero_contentOpacity_clamp_monotone 800 100 400); reflexivity || discriminate.
Defined.

(** ** Scroll progress bar *)

Module ScrollProgressBarFacts.

Import ScrollProgressBar.

(** What the code computes, for every input: the plain quotient. *)
Lemma scaleX_quotient y dh vh :
  scaleX y dh vh == (if Qlt_le_dec 0 (dh - vh) then y / (dh - vh) else 0).
Proof.
  unfold scaleX, updateProgress. cbv zeta.
  destruct (Qlt_le_dec 0 (dh - vh)) as [Hpos|Hle].
  - field. lra.
  - reflexivity.
Qed.

End ScrollProgressBarFacts.

(** C7, as the claim states it, fails: [updateProgress] has no clamp.  With a
    document 100 px taller than the viewport and an offset of 200 px the
    fraction handed to [scaleX] is 2, which is neither the clamped quotient
    nor at most 1. *)
Lemma scroll_progress_unclamped_counterexample :
  ScrollProgressBar.scaleX 200 1100 1000 == 2
  /\ ~ ScrollProgressBar.scaleX 200 1100 1000
       == JsMath.clamp (200 / (1100 - 1000)) 0 1
  /\ ~ ScrollProgressBar.scaleX 200 1100 1000 <= 1.
Proof.
  split; [reflexivity|]. split; intros H; vm_compute in H; discriminate || (now apply H).
Qed.

(** C7, amended.  For a document at least as tall as the viewport the
    progress is, for every offset, the plain quotient
    [offsetY / (documentHeight - viewportHeight)] when the denominator is
    positive and 0 otherwise.  For offsets between 0 and the scrollable
    height [documentHeight - viewportHeight] (any non-negative offset when
    that height is 0) this is the clamped quotient and it never exceeds 1;
    for an offset beyond the scrollable height it exceeds 1, for a negative
    offset it is negative: nothing clamps it. *)
Theorem scroll_progress_in_range (offsetY documentHeight viewportHeight : Q) :
  viewportHeight <= documentHeight ->
  ScrollProgressBar.scaleX offsetY documentHeight viewportHeight
    == (if Qlt_le_dec 0 (documentHeight - viewportHeight)
        then offsetY / (documentHeight - viewportHeight)
        else 0)
  /\ (0 <= offsetY ->
      (0 < documentHeight - viewportHeight -> offsetY <= documentHeight - viewportHeight) ->
      ScrollProgressBar.scaleX offsetY documentHeight viewportHeight
        == (if Qlt_le_dec 0 (documentHeight - viewportHeight)
            then JsMath.clamp (offsetY / (documentHeight - viewportHeight)) 0 1
            else 0)
      /\ ScrollProgressBar.scaleX offsetY documentHeight viewportHeight <= 1)
  /\ (documentHeight - viewportHeight < offsetY ->
      0 < documentHeight - viewportHeight ->
      1 < ScrollProgressBar.scaleX offsetY documentHeight viewportHeight)
  /\ (offsetY < 0 ->
      0 < documentHeight - viewportHeight ->
      ScrollProgressBar.scaleX offsetY documentHeight viewportHeight < 0).
Proof.
  intros Hh. pose proof (ScrollProgressBarFacts.scaleX_quotient
                           offsetY documentHeight viewportHeight) as Hq.
  split; [exact Hq|]. split; [|split].
  - intros H0 H1. rewrite Hq.
    destruct (Qlt_le_dec 0 (documentHeight - viewportHeight)) as [Hpos|Hle].
    + assert (Hq0 : 0 <= offsetY / (documentHeight - viewportHeight))
        by (apply JsMathFacts.div_nonneg; assumption).
      assert (Hq1 : offsetY / (documentHeight - viewportHeight) <= 1)
        by (apply JsMathFacts.div_le_1; [assumption | now apply H1]).
      rewrite JsMathFacts.clamp01_unit by assumption.
      split; [reflexivity | exact Hq1].
    + split; [reflexivity | lra].
  - intros Hbeyond Hpos. rewrite Hq.
    destruct (Qlt_le_dec 0 (documentHeight - viewportHeight)) as [_|Hle]; [|lra].
    apply Qlt_shift_div_l; [exact Hpos | lra].
  - intros Hneg Hpos. rewrite Hq.
    destruct (Qlt_le_dec 0 (documentHeight - viewportHeight)) as [_|Hle]; [|lra].
    apply Qlt_shift_div_r; [exact Hpos | lra].
Qed.

Lemma scroll_progress_in_range_witness :
  (1000 <= 1100 /\ 0 <= 50 /\ 50 <= 1100 - 1000)
  /\ ScrollProgressBar.scaleX 50 1100 1000 == 50 / (1100 - 1000)
  /\ ScrollProgressBar.scaleX 50 1100 1000
     == (if Qlt_le_dec 0 (1100 - 1000)
         then JsMath.clamp (50 / (1100 - 1000)) 0 1 else 0)
  /\ ScrollProgressBar.scaleX 50 1100 1000 <= 1.
Proof.
  assert (Hh : 1000 <= 1100) by discriminate.
  assert (H0 : 0 <= 50) by discriminate.
  assert (H1 : 50 <= 1100 - 1000) by discriminate.
  split; [repeat split; assumption|].
  destruct (scroll_progress_in_range 50 1100 1000 Hh) as (Hq & Hin & _).
  split; [exact Hq|]. exact (Hin H0 (fun _ => H1)).
Defined.

(** ** Navigation: hide on scroll *)

Module NavigationFacts.

Import Navigation.

Lemma handleScroll_last y s : lastScrollY (handleScroll y s) = y.
Proof. reflexivity. Qed.

(** The exact condition under which one event hides a visible bar. *)
Lemma hide_iff y s :
  hideNav s = false ->
  (hideNav (handleScroll y s) = true <-> 500 < y /\ 10 < y - lastScrollY s).
Proof.
  intros Hvis. unfold handleScroll. cbn [hideNav].
  destruct (Qlt_le_dec 500 y); [|split; [discriminate | lra]].
  destruct (Qlt_le_dec (lastScrollY s) y).
  - destruct (Qlt_le_dec 10 (y - lastScrollY s)).
    + split; auto.
    + destruct (Qlt_le_dec 10 (lastScrollY s - y)); rewrite ?Hvis;
        (split; [discriminate | lra]).
  - destruct (Qlt_le_dec 10 (lastScrollY s - y)); rewrite ?Hvis;
      (split; [discriminate | lra]).
Qed.

(** The exact condition under which one event shows a hidden bar. *)
Lemma show_iff y s :
  hideNav s = true ->
  (hideNav (handleScroll y s) = false <-> y <= 500 \/ 10 < lastScrollY s - y).
Proof.
  intros Hhid. unfold handleScroll. cbn [hideNav].
  destruct (Qlt_le_dec 500 y); [|split; [right + left; lra | reflexivity]].
  destruct (Qlt_le_dec (lastScrollY s) y).
  - destruct (Qlt_le_dec 10 (y - lastScrollY s)).
    + split; [discriminate | lra].
    + destruct (Qlt_le_dec 10 (lastScrollY s - y)); rewrite ?Hhid.
      * split; auto.
      * split; [discriminate | lra].
  - destruct (Qlt_le_dec 10 (lastScrollY s - y)); rewrite ?Hhid.
    + split; auto.
    + split; [discriminate | lra].
Qed.

Lemma below_threshold y s : y <= 500 -> hideNav (handleScroll y s) = false.
Proof.
  intros Hy. unfold handleScroll. cbn [hideNav].
  destruct (Qlt_le_dec 500 y); [lra | reflexivity].
Qed.

Lemma scrollAll_snoc evs y s :
  scrollAll (evs ++ [y]) s = handleScroll y (scrollAll evs s).
Proof. unfold scrollAll. now rewrite fold_left_app. Qed.

End NavigationFacts.

(** C3, as the claim states it, fails on the upward rule: the comparison is
    strict.  After the events 600, 610 the bar is hidden at offset 610; the
    next event, 600, is an upward move of exactly 10 above the 500 px
    threshold, and the bar stays hidden. *)
Lemma nav_upward_delta_10_counterexample :
  let before := Navigation.scrollAll [600; 610] Navigation.initial in
  Navigation.hideNav before = true
  /\ Navigation.lastScrollY before - 600 == 10
  /\ Navigation.hideNav (Navigation.handleScroll 600 before) = true.
Proof. vm_compute. repeat split. Qed.

(** C3, amended.  After any sequence of scroll events, the next event at
    offset [y] (a) hides a visible bar only if [y] exceeds 500 and the
    downward move from the previous offset is at least 10, (b) shows the bar
    if the upward move is more than 10, and (c) shows the bar whenever [y] is
    at or below 500; the offset is remembered for the next event.  Above 500
    (d) a move of at most 10 either way, an upward move of exactly 10
    included, leaves the bar as it was, and (e) a downward move of more than
    10 hides it. *)
Theorem nav_hide_on_scroll (events : list Q) (y : Q) :
  let s := Navigation.scrollAll events Navigation.initial in
  let s' := Navigation.scrollAll (events ++ [y]) Navigation.initial in
  (Navigation.hideNav s = false -> Navigation.hideNav s' = true ->
     500 < y /\ 10 <= y - Navigation.lastScrollY s)
  /\ (10 < Navigation.lastScrollY s - y -> Navigation.hideNav s' = false)
  /\ (y <= 500 -> Navigation.hideNav s' = false)
  /\ Navigation.lastScrollY s' = y
  /\ (500 < y -> y - Navigation.lastScrollY s <= 10 ->
      Navigation.lastScrollY s - y <= 10 ->
      Navigation.hideNav s' = Navigation.hideNav s)
  /\ (500 < y -> Navigation.lastScrollY s - y == 10 ->
      Navigation.hideNav s' = Navigation.hideNav s)
  /\ (500 < y -> 10 < y - Navigation.lastScrollY s -> Navigation.hideNav s' = true).
Proof.
  intros s s'. subst s'. rewrite NavigationFacts.scrollAll_snoc. fold s.
  assert (Hsame : 500 < y -> y - Navigation.lastScrollY s <= 10 ->
                  Navigation.lastScrollY s - y <= 10 ->
                  Navigation.hideNav (Navigation.handleScroll y s) = Navigation.hideNav s).
  { intros H500 Hdown Hup. destruct (Navigation.hideNav s) eqn:Hs.
    - destruct (Navigation.hideNav (Navigation.handleScroll y s)) eqn:Hs'; [reflexivity|].
      apply (NavigationFacts.show_iff y s Hs) in Hs'. lra.
    - destruct (Navigation.hideNav (Navigation.handleScroll y s)) eqn:Hs'; [|reflexivity].
      apply (NavigationFacts.hide_iff y s Hs) in Hs'. lra. }
  split; [|split; [|split; [|split; [|split; [|split]]]]].
  - intros H H0. apply (NavigationFacts.hide_iff y s H) in H0. lra.
  - intros Hup. destruct (Navigation.hideNav s) eqn:Hs.
    + apply NavigationFacts.show_iff; [exact Hs | now right].
    + destruct (Navigation.hideNav (Navigation.handleScroll y s)) eqn:Hs'; [|reflexivity].
      apply (NavigationFacts.hide_iff y s Hs) in Hs'. lra.
  - apply NavigationFacts.below_threshold.
  - reflexivity.
  - exact Hsame.
  - intros H500 H10. apply Hsame; lra.
  - intros H500 Hdown. destruct (Navigation.hideNav s) eqn:Hs.
    + destruct (Navigation.hideNav (Navigation.handleScroll y s)) eqn:Hs'; [reflexivity|].
      apply (NavigationFacts.show_iff y s Hs) in Hs'. lra.
    + apply NavigationFacts.hide_iff; [exact Hs | split; assumption].
Qed.

Lemma nav_hide_on_scroll_witness :
  let s := Navigation.scrollAll [0; 100] Navigation.initial in
  let s' := Navigation.scrollAll ([0; 100] ++ [600]) Navigation.initial in
  (Navigation.hideNav s = false /\ Navigation.hideNav s' = true)
  /\ 500 < 600 /\ 10 <= 600 - Navigation.lastScrollY s.
Proof.
  assert (H0 : Navigation.hideNav (Navigation.scrollAll [0; 100] Navigation.initial) = false)
    by reflexivity.
  assert (H1 : Navigation.hideNav
                 (Navigation.scrollAll ([0; 100] ++ [600]) Navigation.initial) = true)
    by reflexivity.
  split; [split; assumption|].
  exact (proj1 (nav_hide_on_scroll [0; 100] 600) H0 H1).
Defined.

(** C10.  The header gets the off-screen translation exactly when [hideNav]
    is true and the mobile menu is closed; with the mobile menu open it is
    never translated, whatever [hideNav] is. *)
Theorem nav_never_hidden_while_mobile_open (hideNav mobileOpen : bool) :
  (Navigation.headerTranslate hideNav mobileOpen = "-translate-y-full"%string
     <-> hideNav = true /\ mobileOpen = false)
  /\ Navigation.headerTranslate hideNav true = "translate-y-0"%string.
Proof.
  destruct hideNav, mobileOpen; cbn; repeat split;
    try discriminate; try tauto; intros [? ?]; discriminate.
Qed.

(** ** Body scroll lock *)

Module BodyLockFacts.

Import BodyLock.

Lemma commit_locked changed s :
  locked (commit changed s) = if changed then mobileOpen s else searchOpen s.
Proof.
  destruct s as [m q g o]. unfold commit, navEffect_body, navEffect_cleanup,
    searchEffect_body, searchEffect_cleanup, setOverflow, locked.
  destruct changed, m, q; reflexivity.
Qed.

Lemma commit_flags changed s :
  mobileOpen (commit changed s) = mobileOpen s
  /\ searchOpen (commit changed s) = searchOpen s.
Proof.
  destruct s as [m q g o]. destruct changed, m, q; split; reflexivity.
Qed.

(** The body is never locked with both overlays closed. *)
Lemma step_locked_open s e :
  (locked s = true -> anyOverlayOpen s = true) ->
  locked (step s e) = true -> anyOverlayOpen (step s e) = true.
Proof.
  intros IH.
  assert (Hc : forall c s', locked (commit c s') = true -> anyOverlayOpen (commit c s') = true).
  { intros c s'. unfold anyOverlayOpen.
    destruct (commit_flags c s') as [-> ->]. rewrite commit_locked.
    destruct c; intros ->; [reflexivity | apply orb_true_r]. }
  unfold step. destruct e; try apply Hc;
    (destruct (sameFlags s (update _ s)); [exact IH | apply Hc]).
Qed.

Lemma run_locked_open events :
  locked (run events) = true -> anyOverlayOpen (run events) = true.
Proof.
  unfold run. induction events as [|e events IH] using rev_ind.
  - discriminate.
  - rewrite fold_left_app. cbn [fold_left]. now apply step_locked_open.
Qed.

End BodyLockFacts.

(** C8, the code at the failing input: the mobile menu is opened, the search
    overlay is opened over it and closed again.  The clean-up of the search
    overlay's effect resets [document.body.style.overflow] although the mobile
    menu is still open: the body scrolls behind an open overlay. *)
Theorem body_unlocked_under_open_mobile_menu :
  let s := BodyLock.run [BodyLock.ToggleMobile; BodyLock.OpenSearch; BodyLock.CloseSearch] in
  BodyLock.mobileOpen s = true
  /\ BodyLock.anyOverlayOpen s = true
  /\ BodyLock.overflow s = EmptyString
  /\ BodyLock.locked s = false
  /\ BodyLock.locked
       (BodyLock.run [BodyLock.ToggleMobile; BodyLock.OpenSearch]) = true.
Proof. vm_compute. repeat split. Qed.

(** ** One-shot visibility triggers *)

Module VisibilityFacts.

Import Visibility.

Lemma callSites_once o : In o callSites -> once o = true.
Proof.
  unfold callSites. cbn [In].
  intros H; repeat (destruct H as [<-|H]; [reflexivity|]); contradiction.
Qed.

Section Once.

Variable o : Options.
Hypothesis Honce : once o = true.

Lemma observe_keeps f c :
  isInView f = true -> observe o f c = f.
Proof.
  intros Hf. destruct c; cbn; [now rewrite Hf | now rewrite Honce].
Qed.

Lemma observeAll_keeps cs f :
  isInView f = true -> observeAll o cs f = f.
Proof.
  unfold observeAll. revert f.
  induction cs as [|c cs IH]; intros f Hf; [reflexivity|].
  cbn [fold_left]. rewrite (observe_keeps f c Hf). now apply IH.
Qed.

Lemma observe_consistent f c : consistent f -> consistent (observe o f c).
Proof.
  unfold consistent. intros Hf. destruct c; cbn.
  - destruct (isInView f) eqn:E; cbn.
    + now rewrite E.
    + now rewrite Hf.
  - now rewrite Honce.
Qed.

Lemma observeAll_consistent cs f :
  consistent f -> consistent (observeAll o cs f).
Proof.
  unfold observeAll. revert f.
  induction cs as [|c cs IH]; intros f Hf; [exact Hf|].
  cbn [fold_left]. apply IH. now apply observe_consistent.
Qed.

Lemma observeAll_enter cs f :
  In Enter cs -> isInView (observeAll o cs f) = true.
Proof.
  unfold observeAll. revert f.
  induction cs as [|c cs IH]; intros f Hin; [contradiction|].
  cbn [fold_left]. destruct Hin as [->|Hin]; [|now apply IH].
  assert (Hset : isInView (observe o f Enter) = true)
    by (cbn; destruct (isInView f) eqn:Hf; [exact Hf | reflexivity]).
  fold (observeAll o cs (observe o f Enter)).
  now rewrite observeAll_keeps.
Qed.

End Once.

End VisibilityFacts.

(** C6.  Every call of [useInView] in the source passes [once: true]; for
    such a trigger and any history of threshold crossings, a flag that is set
    after a prefix of the history is still set, with the same reveal count,
    after the whole history; the reveal animation has started at most once,
    and exactly once as soon as the element has entered. *)
Theorem visibility_trigger_one_shot
    (o : Visibility.Options) (before after : list Visibility.Crossing) :
  In o Visibility.callSites ->
  let f := Visibility.observeAll o before Visibility.unarmed in
  let g := Visibility.observeAll o (before ++ after) Visibility.unarmed in
  Visibility.once o = true
  /\ (Visibility.isInView f = true ->
        Visibility.isInView g = true /\ Visibility.reveals g = Visibility.reveals f)
  /\ (Visibility.reveals g <= 1)%nat
  /\ (In Visibility.Enter (before ++ after) ->
        Visibility.isInView g = true /\ Visibility.reveals g = 1%nat).
Proof.
  intros Hsite f g.
  pose proof (VisibilityFacts.callSites_once o Hsite) as Honce.
  assert (Hg : Visibility.consistent g).
  { apply VisibilityFacts.observeAll_consistent; [exact Honce | reflexivity]. }
  split; [exact Honce|]. split; [|split].
  - intros Hf. subst g. unfold Visibility.observeAll in *.
    rewrite fold_left_app. fold f.
    fold (Visibility.observeAll o after f).
    rewrite (VisibilityFacts.observeAll_keeps o Honce after f Hf).
    split; [exact Hf | reflexivity].
  - unfold Visibility.consistent in Hg. rewrite Hg.
    destruct (Visibility.isInView g); auto.
  - intros Hin.
    pose proof (VisibilityFacts.observeAll_enter o Honce _ Visibility.unarmed Hin) as Hv.
    fold g in Hv. unfold Visibility.consistent in Hg.
    rewrite Hv in Hg. split; assumption.
Qed.

Lemma visibility_trigger_one_shot_witness :
  let o := Visibility.mkOptions "DivisionCard" true None (Some "-80px"%string) in
  let g := Visibility.observeAll o
             ([Visibility.Enter] ++ [Visibility.Leave; Visibility.Enter])
             Visibility.unarmed in
  In o Visibility.callSites
  /\ Visibility.isInView g = true /\ Visibility.reveals g = 1%nat.
Proof.
  intros o g.
  assert (Hsite : In o Visibility.callSites) by (cbn; tauto).
  split; [exact Hsite|].
  apply (visibility_trigger_one_shot o [Visibility.Enter]
           [Visibility.Leave; Visibility.Enter] Hsite).
  cbn; tauto.
Defined.

(** ** Animated counter *)

Module AnimatedCounterFacts.

Import AnimatedCounter.

Lemma increment_nonneg value : 0 <= value -> 0 <= increment value.
Proof.
  intros Hv. unfold increment. apply Binary64Facts.round_nonneg.
  apply JsMathFacts.div_nonneg; [exact Hv | reflexivity].
Qed.

(** A cleared interval stays cleared and the display no longer changes. *)
Lemma tick_stopped value s : running s = false -> tick value s = s.
Proof. intros H. unfold tick. now rewrite H. Qed.

Lemma running_pred value n :
  running (ticks value (S n)) = true -> running (ticks value n) = true.
Proof.
  cbn [ticks]. destruct (running (ticks value n)) eqn:Hr; [reflexivity|].
  now rewrite tick_stopped, Hr.
Qed.

Lemma inv_start value : 0 <= value -> inv value start.
Proof. intros Hv. repeat split; cbn; lra || reflexivity || exact Hv. Qed.

Lemma inv_tick value s : 0 <= value -> inv value s -> inv value (tick value s).
Proof.
  intros Hv (Hc & Hd & Hs). pose proof (increment_nonneg value Hv) as Hi.
  unfold tick. destruct (running s) eqn:Hr.
  - assert (H0 : 0 <= Binary64.round (current s + increment value))
      by (apply Binary64Facts.round_nonneg; lra).
    pose proof (Binary64Facts.round_idem (current s + increment value)) as Hid.
    destruct (Qlt_le_dec (Binary64.round (current s + increment value)) value) as [Hlt|Hge];
      unfold inv; cbn [running current count].
    + split; [exact H0|]. split; [exact Hid|]. split; [reflexivity|].
      pose proof (JsMathFacts.floor_le (Binary64.round (current s + increment value))). lra.
    + split; [exact H0|]. split; [exact Hid | reflexivity].
  - unfold inv. rewrite Hr. repeat split; assumption.
Qed.

Lemma inv_ticks value n : 0 <= value -> inv value (ticks value n).
Proof.
  intros Hv. induction n as [|n IH]; [now apply inv_start|].
  cbn [ticks]. now apply inv_tick.
Qed.





Lemma running_below value n :
  running (ticks value (S n)) = true -> current (ticks value (S n)) < value.
Proof.
  intros Hr. pose proof (running_pred value n Hr) as Hp.
  cbn [ticks] in *. unfold tick in *. rewrite Hp in *.
  destruct (Qlt_le_dec _ value) as [Hlt|Hge]; cbn [running current] in *;
    [exact Hlt | discriminate].
Qed.

(** *** A target in the normal range: value / 60 is a normal double *)

Section Normal.

Variable value : Q.
Hypothesis value_normal : Binary64.pow2 (-1016) <= value.

Let tiny := Binary64.pow2 (-1022).

Lemma value_pos : 0 < value.
Proof. pose proof (Binary64Facts.pow2_pos (-1016)). lra. Qed.

Lemma quotient_normal : tiny <= value / 60.
Proof.
  pose proof Binary64Facts.pow2_1016 as E.
  pose proof (Binary64Facts.pow2_pos (-1022)) as P.
  apply Qle_shift_div_l; [reflexivity|]. unfold tiny. lra.
Qed.

Lemma increment_normal : tiny <= increment value.
Proof.
  unfold increment, tiny. rewrite <- Binary64Facts.pow2_1022_exact.
  apply Binary64Facts.round_mono. exact quotient_normal.
Qed.

Lemma increment_lower : value * (1 # 60) * (1 - Binary64.u) <= increment value.
Proof.
  assert (E : value * (1 # 60) == value / 60) by field. rewrite E.
  unfold increment. apply Binary64Facts.round_rel. exact quotient_normal.
Qed.

Lemma increment_upper : increment value <= value * (1 # 60) * (1 + Binary64.u).
Proof.
  assert (E : value * (1 # 60) == value / 60) by field. rewrite E.
  unfold increment. apply Binary64Facts.round_rel_upper. exact quotient_normal.
Qed.

(** Each addition loses at most [2 * value * u] to rounding. *)
Lemma current_lower n :
  running (ticks value n) = true ->
  inject_Z (Z.of_nat n) * (increment value - 2 * value * Binary64.u)
    <= current (ticks value n).
Proof.
  induction n as [|n IH]; intros Hr.
  - change (inject_Z (Z.of_nat 0)) with 0. rewrite Qmult_0_l. apply Qle_refl.
  - pose proof (running_pred value n Hr) as Hp. specialize (IH Hp).
    assert (Hv : 0 <= value) by (pose proof value_pos; lra).
    destruct (inv_ticks value n Hv) as (Hc & _ & _).
    pose proof increment_normal as Hi.
    pose proof (Binary64Facts.round_rel (current (ticks value n) + increment value)) as Hrel.
    cbn [ticks] in *. unfold tick in *. rewrite Hp in *.
    destruct (Qlt_le_dec _ value) as [Hlt|Hge]; cbn [running current] in *;
      [|discriminate].
    rewrite Nat2Z.inj_succ. unfold Z.succ. rewrite inject_Z_plus.
    change (inject_Z 1) with 1.
    set (c := current (ticks value n)) in *.
    set (i := increment value) in *.
    set (r := Binary64.round (c + i)) in *.
    assert (H : (c + i) * (1 - Binary64.u) <= r) by (apply Hrel; unfold tiny in Hi; lra).
    unfold Binary64.u in *.
    change (Binary64.pow2 (-53)) with (1 # 9007199254740992) in *.
    lra.
Qed.

(** Each addition gains at most [2 * value * u] from rounding, so fifty-nine
    additions stay below the target. *)
Lemma still_running n :
  (n <= 59)%nat ->
  running (ticks value n) = true
  /\ current (ticks value n)
     <= inject_Z (Z.of_nat n) * (increment value + 2 * value * Binary64.u).
Proof.
  pose proof value_pos as Hv.
  pose proof increment_upper as Hup.
  pose proof increment_normal as Hlow.
  induction n as [|n IH]; intros Hn.
  - split; [reflexivity|].
    change (inject_Z (Z.of_nat 0)) with 0. rewrite Qmult_0_l. apply Qle_refl.
  - destruct IH as [Hr Hc]; [lia|].
    assert (Hv0 : 0 <= value) by lra.
    destruct (inv_ticks value n Hv0) as (Hc0 & _ & _).
    pose proof (Binary64Facts.round_rel_upper (current (ticks value n) + increment value))
      as Hrel.
    assert (HN : inject_Z (Z.of_nat n) <= 58).
    { change 58 with (inject_Z 58). rewrite <- Zle_Qle. lia. }
    cbn [ticks]. unfold tick. rewrite Hr.
    rewrite Nat2Z.inj_succ. unfold Z.succ. rewrite inject_Z_plus.
    change (inject_Z 1) with 1.
    set (c := current (ticks value n)) in *.
    set (i := increment value) in *.
    set (r := Binary64.round (c + i)) in *.
    set (N := inject_Z (Z.of_nat n)) in *.
    assert (H : r <= (c + i) * (1 + Binary64.u)) by (apply Hrel; unfold tiny in Hlow; lra).
    unfold Binary64.u in *.
    change (Binary64.pow2 (-53)) with (1 # 9007199254740992) in *.
    set (A := i + 2 * value * (1 # 9007199254740992)) in *.
    assert (HA : 0 <= A)
      by (unfold A, tiny in *; pose proof (Binary64Facts.pow2_pos (-1022)); lra).
    assert (HNA : N * A <= 58 * A) by (apply Qmult_le_compat_r; assumption).
    assert (Hr' : r <= (N + 1) * A /\ r < value) by (unfold A in *; lra).
    destruct Hr' as [Hr1 Hr2].
    destruct (Qlt_le_dec r value) as [_|Hge]; [|lra].
    cbn [running current]. split; [reflexivity | exact Hr1].
Qed.

(** Sixty-one ticks always suffice. *)
Lemma stopped_at_61 : running (ticks value 61) = false.
Proof.
  destruct (running (ticks value 61)) eqn:Hr; [|reflexivity]. exfalso.
  pose proof (current_lower 61 Hr) as Hl.
  pose proof (running_below value 60 Hr) as Hlt.
  pose proof increment_lower as Hi. pose proof value_pos as Hv.
  change (inject_Z (Z.of_nat 61)) with 61 in Hl.
  set (c := current (ticks value 61)) in *.
  set (i := increment value) in *.
  unfold Binary64.u in *.
  change (Binary64.pow2 (-53)) with (1 # 9007199254740992) in *.
  lra.
Qed.

End Normal.

(** *** A positive target whose increment rounds to zero *)



End AnimatedCounterFacts.




(** ** Preloader *)

Module PreloaderFacts.

Import Preloader.
Local Open Scope Z_scope.

(** *** Symbolic execution of the event loop

    The comparisons of instants and of timer identifiers that the loop
    performs are settled by linear arithmetic, one dispatch at a time. *)

Ltac decide_tests :=
  repeat match goal with
    | |- context [Nat.eqb ?a ?a] => rewrite (Nat.eqb_refl a)
    | |- context [Nat.eqb ?a ?b] => rewrite (proj2 (Nat.eqb_neq a b)) by lia
    | |- context [Z.ltb ?a ?b] =>
        first [ rewrite (proj2 (Z.ltb_lt a b)) by lia
              | rewrite (proj2 (Z.ltb_ge a b)) by lia ]
    | |- context [Z.max ?a ?b] =>
        first [ rewrite (Z.max_r a b) by lia | rewrite (Z.max_l a b) by lia ]
    end.

Ltac normalise :=
  repeat (progress (cbv -[Z.add Z.ltb Z.max Nat.eqb]; decide_tests)).

Lemma next_earliest env s t :
  earliest (timers s) = Some t -> next env s = dispatch env t s.
Proof. intros H. unfold next. now rewrite H. Qed.

Ltac eval_next :=
  match goal with
  | |- context [next ?env (mkState ?a ?b ?c ?d ?e ?f ?g ?h ?i ?j ?k ?l ?m ?n ?o ?p ?q)] =>
      let S := constr:(mkState a b c d e f g h i j k l m n o p q) in
      let E := fresh "Hearliest" in
      eassert (E : earliest (timers S) = Some _);
      [ cbv [timers earliest due]; decide_tests; reflexivity
      | rewrite (next_earliest env S _ E); clear E;
        match goal with
        | |- context [dispatch env ?t S] =>
            let H := fresh "Hstep" in
            eassert (H : dispatch env t S = _);
            [ normalise; reflexivity | rewrite H; clear H ]
        end ]
  end.

Lemma exit_sequence (env : Env) (s : State) (w : nat) (d : Z) (k : nat) :
  mounted s = true -> loaded s = false -> assetsReady s = false ->
  phase s = loading -> nth_error stages (currentStage s) = None ->
  timers s = [mkTimer w d None (TimeoutFallback loading k)] ->
  timeoutFallback s = Some w -> exitTimer s = None -> (w < nextId s)%nat ->
  let s1 := runStage s in
  let s2 := next env s1 in
  let s3 := next env s2 in
  let s4 := next env s3 in
  (now s1 = now s /\ phase s1 = complete /\ assetsReady s1 = false)
  /\ (now s2 = now s + 400 /\ phase s2 = complete /\ assetsReady s2 = true)
  /\ (now s3 = now s + 400 + 600 /\ phase s3 = exit /\ calls s3 = calls s)
  /\ (now s4 = now s + 400 + 600 + 800
      /\ calls s4 = (now s + 400 + 600 + 800, onComplete s) :: calls s).
Proof.
  intros Hm Hl Ha Hp Hst Ht Hw He Hlt.
  destruct s as [now0 mounted0 loaded0 onComplete0 progress0 phase0 assetsReady0 showSkip0
                 currentStage0 currentProgress0 timers0 nextId0 skipTimer0 timeoutFallback0
                 startTimer0 exitTimer0 calls0].
  cbn in Hm, Hl, Ha, Hp, Hst, Ht, Hw, He, Hlt. subst.
  cbv zeta.
  match goal with |- context [runStage ?S] =>
    let H := fresh in
    eassert (H : runStage S = _);
    [ unfold runStage; cbn [currentStage]; rewrite Hst;
      normalise; reflexivity
    | rewrite H; clear H ] end.
  eval_next.
  eval_next.
  eval_next.
  cbn [now phase assetsReady calls].
  repeat split.
Qed.

Lemma runStage_starts_interval (s : State) (st : Stage) :
  nth_error stages (currentStage s) = Some st ->
  timers (runStage s) =
    timers s ++ [mkTimer (nextId s) (now s + 16) (Some 16)
                   (StageTick (target st) (stageIncrement st (currentProgress s)))]
  /\ currentProgress (runStage s) = currentProgress s
  /\ phase (runStage s) = phase s.
Proof.
  intros Hst. unfold runStage. rewrite Hst. repeat split.
Qed.

Lemma clearTimer_absent h s u :
  In u (timers (clearTimer h s)) -> id u <> h.
Proof.
  destruct s; cbn. rewrite filter_In. intros [_ H].
  apply negb_true_iff, Nat.eqb_neq in H. exact H.
Qed.

Lemma stage_tick (env : Env) (s : State) (t : Timer) (tgt : Z) (inc : Q) :
  mounted s = true -> callback t = StageTick tgt inc -> every t = Some 16 ->
  let cp := (currentProgress s + inc)%Q in
  let s' := dispatch env t s in
  ((cp < inject_Z tgt)%Q ->
     currentProgress s' = cp /\ progress s' = Qfloor cp
     /\ currentStage s' = currentStage s
     /\ In (mkTimer (id t) (due t + 16) (Some 16) (StageTick tgt inc)) (timers s'))
  /\ ((inject_Z tgt <= cp)%Q ->
     currentProgress s' = inject_Z tgt /\ progress s' = tgt
     /\ currentStage s' = S (currentStage s)
     /\ (forall u, In u (timers s') -> callback u = StageTick tgt inc -> id u <> id t)
     /\ In (mkTimer (nextId s) (Z.max (now s) (due t) + pause env (currentStage s))
              None RunStage) (timers s')).
Proof.
  intros Hm Hcb Hev cp s'. subst s'.
  unfold dispatch, fire. rewrite Hev, Hcb. unfold stageTick.
  destruct s as [now0 mounted0 loaded0 onComplete0 progress0 phase0 assetsReady0 showSkip0
                 currentStage0 currentProgress0 timers0 nextId0 skipTimer0 timeoutFallback0
                 startTimer0 exitTimer0 calls0].
  destruct t as [i d e c]. cbn in Hm, Hcb, Hev, cp. subst.
  cbn [currentProgress with_timers with_now clearTimer timers id due callback
       now mounted loaded onComplete progress phase assetsReady showSkip currentStage
       nextId skipTimer timeoutFallback startTimer exitTimer calls].
  fold cp.
  destruct (Qlt_le_dec cp (inject_Z tgt)) as [Hlt|Hge]; split; intros Hcmp.
  - cbn. repeat split. apply in_or_app. right. now left.
  - exfalso. apply (Qlt_not_le _ _ Hlt Hcmp).
  - exfalso. apply (Qlt_not_le _ _ Hcmp Hge).
  - cbn. repeat split.
    + intros u Hin Hu. rewrite in_app_iff in Hin. destruct Hin as [Hin|[<-|[]]].
      * rewrite filter_In in Hin. destruct Hin as [_ H].
        apply negb_true_iff, Nat.eqb_neq in H. exact H.
      * discriminate Hu.
    + apply in_or_app. right. now left.
Qed.

(** *** Bounded quantification over integer instants *)

Lemma forall_Zrange (P : Z -> bool) (lo : Z) (n : nat) :
  forallb P (map (fun i => lo + Z.of_nat i) (seq 0 n)) = true ->
  forall z, lo <= z < lo + Z.of_nat n -> P z = true.
Proof.
  intros H z Hz. rewrite forallb_forall in H. apply H.
  apply in_map_iff. exists (Z.to_nat (z - lo)). split; [lia|].
  apply in_seq. lia.
Qed.

(** *** Whole runs without a parent render

    With the prop left alone the three exit paths behave: each calls it
    once. *)

Lemma calledOnceAt_calls t s :
  calledOnceAt t s = true -> exists k, calls s = [(t, k)].
Proof.
  unfold calledOnceAt. destruct (calls s) as [|[u k] [|? ?]]; try discriminate.
  intros H. apply Z.eqb_eq in H. subst. now exists k.
Qed.

(** Normal completion, for every pause length the source can draw (taken
    equal for the six stages): one call, 1800 ms after the phase turned
    [complete]. *)
Lemma undisturbed_run_calls_once p :
  50 <= p < 150 -> undisturbed_check p = true.
Proof.
  intros Hp. apply (forall_Zrange undisturbed_check 50 100); [|lia].
  vm_compute. reflexivity.
Qed.

(** Skip, at any instant at which the button is shown (from 2000 ms until
    the phase leaves [loading] at 2932 ms, pauses of 100 ms): one call, 300 ms
    after the click, although the stage driver keeps running. *)
Lemma skip_calls_once t :
  2000 <= t < 2932 -> skip_check t = true.
Proof.
  intros Ht. apply (forall_Zrange skip_check 2000 932); [|lia].
  vm_compute. reflexivity.
Qed.

(** Watchdog, the stage driver being stalled and the prop left alone: the
    phase is forced to [exit] at 10000 ms and the prop is called once, at
    10300 ms. *)
Lemma watchdog_rescues_stalled_run :
  phase (run stalledEnv 400 9999 [] mount) = loading
  /\ phase (run stalledEnv 400 10000 [] mount) = exit
  /\ calls (run stalledEnv 400 10299 [] mount) = []
  /\ calls (runToEnd stalledEnv []) = [(10300, 0%nat)].
Proof. vm_compute. repeat split. Qed.

End PreloaderFacts.

(** C1, the code at the failing input.  Pauses of 100 ms, no skip; [App]
    re-renders once, 4000 ms after the mount (its [scrolled] cell flips),
    between the exit timer (3932 ms) and the call it scheduled (4732 ms).
    The new [onComplete] re-runs the exit effect, which arms a second exit
    timer; that one schedules a second call, which no clean-up cancels.  The
    prop is called at 4732 ms and again at 5400 ms. *)
Theorem preloader_parent_render_calls_twice :
  let s := Preloader.runToEnd (Preloader.constEnv 100) [(4000%Z, Preloader.ParentRender)] in
  Preloader.quiescent [] s = true
  /\ Preloader.calls s = [(5400%Z, 1%nat); (4732%Z, 0%nat)]
  /\ Preloader.timesCalled s = 2%nat.
Proof. vm_compute. repeat split. Qed.

(** C4, the code at the failing input.  The watchdog is re-armed, for
    another 10000 ms, by every change of [phase] and of [onComplete].  With
    [App] re-rendering every 500 ms from 3400 ms on, the exit timer and the
    watchdog are both restarted before they fire: at 10350 ms the preloader
    is still mounted in phase [complete], the prop has not been called, and
    the watchdog is due at 19900 ms.  The same happens to a stalled stage
    driver after a single parent render at 5000 ms: the watchdog moves to
    15000 ms. *)
Theorem preloader_watchdog_postponed :
  let s := Preloader.run (Preloader.constEnv 100) 400 10350
             Preloader.rendersEvery500 Preloader.mount in
  let s' := Preloader.run Preloader.stalledEnv 400 10350
              [(5000%Z, Preloader.ParentRender)] Preloader.mount in
  (Preloader.mounted s = true
   /\ Preloader.phase s = Preloader.complete
   /\ Preloader.calls s = []
   /\ map (fun t => (Preloader.due t, Preloader.callback t)) (Preloader.timers s)
      = [(19900%Z, Preloader.TimeoutFallback Preloader.complete 14);
         (10500%Z, Preloader.ExitTimer 14)])
  /\ (Preloader.mounted s' = true
      /\ Preloader.phase s' = Preloader.loading
      /\ Preloader.calls s' = []
      /\ map (fun t => (Preloader.due t, Preloader.callback t)) (Preloader.timers s')
         = [(1000508%Z, Preloader.RunStage);
            (15000%Z, Preloader.TimeoutFallback Preloader.loading 1)]).
Proof. vm_compute. repeat split. Qed.

(** C5, as the claim states it, fails on the displayed value: [setProgress]
    receives [Math.floor(currentProgress)].  Stage 2 starts at instant 608
    with 15 on display and the increment 320/400 = 0.8; at its first tick
    (instant 624) the accumulator is 15.8 and the display still shows 15. *)
Lemma preloader_displayed_progress_counterexample :
  let before := Preloader.run (Preloader.constEnv 100) 400 608 [] Preloader.mount in
  let after := Preloader.run (Preloader.constEnv 100) 400 624 [] Preloader.mount in
  Preloader.progress before = 15%Z
  /\ map Preloader.callback (Preloader.timers before)
     = [Preloader.ShowSkip; Preloader.TimeoutFallback Preloader.loading 0;
        Preloader.StageTick 35 (320 # 400)]
  /\ Preloader.now after = 624%Z
  /\ Preloader.currentProgress after == 15 + (8 # 10)
  /\ Preloader.progress after = 15%Z.
Proof. vm_compute. repeat split. Qed.

(** C5, amended.  (1) [runStage] on a stage of the table registers a 16 ms
    interval whose callback carries the stage target and the increment
    [(target - currentProgress) / (duration / 16)], fixed for the stage.
    (2) Each firing of that interval adds the increment to the accumulator
    [currentProgress]; while the sum is below the target the display shows
    its floor and the interval stays armed for 16 ms later; once the sum
    reaches or exceeds the target, accumulator and display are set to the
    target exactly, the interval is cleared, the stage counter advances and
    [runStage] is scheduled after the pause.  (3) When [runStage] finds the
    table exhausted, with only the watchdog pending, the phase becomes
    [complete] at once, [assetsReady] becomes true 400 ms later, the phase
    becomes [exit] 600 ms after that and the prop is called 800 ms after
    that, as the next three timers to fire. *)
Theorem preloader_stage_progress_and_exit_sequence :
  (forall (s : Preloader.State) (st : Preloader.Stage),
      nth_error Preloader.stages (Preloader.currentStage s) = Some st ->
      Preloader.timers (Preloader.runStage s) =
        Preloader.timers s ++
        [Preloader.mkTimer (Preloader.nextId s) (Preloader.now s + 16) (Some 16%Z)
           (Preloader.StageTick (Preloader.target st)
              (Preloader.stageIncrement st (Preloader.currentProgress s)))])
  /\ (forall (env : Preloader.Env) (s : Preloader.State) (t : Preloader.Timer)
        (tgt : Z) (inc : Q),
      Preloader.mounted s = true ->
      Preloader.callback t = Preloader.StageTick tgt inc ->
      Preloader.every t = Some 16%Z ->
      let cp := Preloader.currentProgress s + inc in
      let s' := Preloader.dispatch env t s in
      (cp < inject_Z tgt ->
         Preloader.currentProgress s' = cp
         /\ Preloader.progress s' = Qfloor cp
         /\ Preloader.currentStage s' = Preloader.currentStage s
         /\ In (Preloader.mkTimer (Preloader.id t) (Preloader.due t + 16) (Some 16%Z)
                  (Preloader.StageTick tgt inc)) (Preloader.timers s'))
      /\ (inject_Z tgt <= cp ->
         Preloader.currentProgress s' = inject_Z tgt
         /\ Preloader.progress s' = tgt
         /\ Preloader.currentStage s' = S (Preloader.currentStage s)
         /\ (forall u, In u (Preloader.timers s') ->
               Preloader.callback u = Preloader.StageTick tgt inc ->
               Preloader.id u <> Preloader.id t)
         /\ In (Preloader.mkTimer (Preloader.nextId s)
                  (Z.max (Preloader.now s) (Preloader.due t)
                   + Preloader.pause env (Preloader.currentStage s))
                  None Preloader.RunStage) (Preloader.timers s')))
  /\ (forall (env : Preloader.Env) (s : Preloader.State) (w : nat) (d : Z) (k : nat),
      Preloader.mounted s = true -> Preloader.loaded s = false ->
      Preloader.assetsReady s = false -> Preloader.phase s = Preloader.loading ->
      nth_error Preloader.stages (Preloader.currentStage s) = None ->
      Preloader.timers s
        = [Preloader.mkTimer w d None (Preloader.TimeoutFallback Preloader.loading k)] ->
      Preloader.timeoutFallback s = Some w -> Preloader.exitTimer s = None ->
      (w < Preloader.nextId s)%nat ->
      let s1 := Preloader.runStage s in
      let s2 := Preloader.next env s1 in
      let s3 := Preloader.next env s2 in
      let s4 := Preloader.next env s3 in
      (Preloader.now s1 = Preloader.now s
       /\ Preloader.phase s1 = Preloader.complete
       /\ Preloader.assetsReady s1 = false)
      /\ (Preloader.now s2 = Preloader.now s + 400
          /\ Preloader.phase s2 = Preloader.complete
          /\ Preloader.assetsReady s2 = true)
      /\ (Preloader.now s3 = Preloader.now s + 400 + 600
          /\ Preloader.phase s3 = Preloader.exit
          /\ Preloader.calls s3 = Preloader.calls s)
      /\ (Preloader.now s4 = Preloader.now s + 400 + 600 + 800
          /\ Preloader.calls s4
             = (Preloader.now s + 400 + 600 + 800, Preloader.onComplete s)
               :: Preloader.calls s))%Z.
Proof.
  split; [|split].
  - intros s st Hst. now apply PreloaderFacts.runStage_starts_interval.
  - intros env s t tgt inc. apply PreloaderFacts.stage_tick.
  - intros env s w d k. apply PreloaderFacts.exit_sequence.
Qed.

Lemma preloader_stage_progress_and_exit_sequence_witness :
  let env := Preloader.constEnv 100 in
  (* stage 2 is about to tick for the first time *)
  let sB := Preloader.run env 400 608 [] Preloader.mount in
  let tB := Preloader.mkTimer 5 624 (Some 16%Z) (Preloader.StageTick 35 (320 # 400)) in
  (* the pause after the last stage has elapsed: [runStage] is called *)
  let sC := Preloader.with_now 2932
              (Preloader.clearTimer 14 (Preloader.run env 400 2931 [] Preloader.mount)) in
  let s4 := Preloader.next env (Preloader.next env (Preloader.next env (Preloader.runStage sC))) in
  (In tB (Preloader.timers sB)
   /\ Preloader.currentProgress sB + (320 # 400) < inject_Z 35
   /\ Preloader.progress (Preloader.dispatch env tB sB)
      = Qfloor (Preloader.currentProgress sB + (320 # 400)))
  /\ (Preloader.next env (Preloader.run env 400 2931 [] Preloader.mount)
      = Preloader.runStage sC
      /\ Preloader.calls s4
         = ((Preloader.now sC + 400 + 600 + 800)%Z, Preloader.onComplete sC)
           :: Preloader.calls sC).
Proof.
  intros env sB tB sC s4.
  destruct preloader_stage_progress_and_exit_sequence as (_ & HB & HC).
  split.
  - assert (Hin : In tB (Preloader.timers sB)) by (vm_compute; tauto).
    assert (Hlt : Preloader.currentProgress sB + (320 # 400) < inject_Z 35)
      by (vm_compute; reflexivity).
    split; [exact Hin|]. split; [exact Hlt|].
    assert (Hm : Preloader.mounted sB = true) by (vm_compute; reflexivity).
    exact (proj1 (proj2 (proj1 (HB env sB tB 35%Z (320 # 400) Hm eq_refl eq_refl) Hlt))).
  - split; [vm_compute; reflexivity|].
    assert (Hm : Preloader.mounted sC = true) by (vm_compute; reflexivity).
    assert (Hl : Preloader.loaded sC = false) by (vm_compute; reflexivity).
    assert (Ha : Preloader.assetsReady sC = false) by (vm_compute; reflexivity).
    assert (Hp : Preloader.phase sC = Preloader.loading) by (vm_compute; reflexivity).
    assert (Hst : nth_error Preloader.stages (Preloader.currentStage sC) = None)
      by (vm_compute; reflexivity).
    assert (Ht : Preloader.timers sC
                 = [Preloader.mkTimer 1 10000 None
                      (Preloader.TimeoutFallback Preloader.loading 0)])
      by (vm_compute; reflexivity).
    assert (Hw : Preloader.timeoutFallback sC = Some 1%nat) by (vm_compute; reflexivity).
    assert (He : Preloader.exitTimer sC = None) by (vm_compute; reflexivity).
    assert (Hid : (1 < Preloader.nextId sC)%nat) by (vm_compute; lia).
    exact (proj2 (proj2 (proj2 (proj2
             (HC env sC 1%nat 10000%Z 0%nat Hm Hl Ha Hp Hst Ht Hw He Hid))))).
Defined.

(** * Further properties of the code *)

Module HeroFacts.

Lemma le_div_iff c y d : 0 < d -> (c <= y / d <-> c * d <= y).
Proof.
  intros Hd. split; intros H.
  - assert (E : y == y / d * d) by (field; lra).
    rewrite E. apply Qmult_le_compat_r; lra.
  - apply Qle_shift_div_l; assumption.
Qed.

Lemma progress_unit y vh : 0 < vh -> 0 <= y -> 0 <= Hero.progress y vh <= 1.
Proof.
  intros Hvh Hy. unfold Hero.progress. split.
  - apply JsMathFacts.min_nonneg; [|lra].
    apply JsMathFacts.div_nonneg; lra.
  - apply JsMathFacts.min_le_r.
Qed.

(** The progress has reached the level [c <= 1] exactly when the offset has
    reached [c * 0.7] viewport heights. *)
Lemma progress_ge_iff c y vh :
  0 < vh -> c <= 1 -> (c <= Hero.progress y vh <-> c * (vh * (7 # 10)) <= y).
Proof.
  intros Hvh Hc. rewrite <- (le_div_iff c y (vh * (7 # 10))) by lra.
  unfold Hero.progress, JsMath.min.
  destruct (Qlt_le_dec 1 (y / (vh * (7 # 10)))); split; intros; lra.
Qed.

End HeroFacts.

(** X1.  For a positive viewport height and a non-negative offset the hero
    content's opacity lies in [0, 1] and is 0 exactly from 70% of the
    viewport height on; its scale lies in [0.95, 1]; the scroll indicator's
    opacity lies in [0, 1] and is 0 exactly from 35% of the viewport height
    on. *)
Theorem hero_layers_fade_out (viewportHeight scrollY : Q) :
  0 < viewportHeight -> 0 <= scrollY ->
  (0 <= Hero.contentOpacity scrollY viewportHeight <= 1
   /\ (Hero.contentOpacity scrollY viewportHeight == 0
       <-> viewportHeight * (7 # 10) <= scrollY))
  /\ (95 # 100 <= Hero.contentScale scrollY viewportHeight <= 1)
  /\ (0 <= Hero.scrollIndicatorOpacity scrollY viewportHeight <= 1
      /\ (Hero.scrollIndicatorOpacity scrollY viewportHeight == 0
          <-> viewportHeight * (35 # 100) <= scrollY)).
Proof.
  intros Hvh Hy.
  pose proof (HeroFacts.progress_unit scrollY viewportHeight Hvh Hy) as [H0 H1].
  pose proof (HeroFacts.progress_ge_iff 1 scrollY viewportHeight Hvh) as Hfull.
  pose proof (HeroFacts.progress_ge_iff (1 # 2) scrollY viewportHeight Hvh) as Hhalf.
  unfold Hero.contentOpacity, Hero.contentScale, Hero.scrollIndicatorOpacity, JsMath.max.
  set (p := Hero.progress scrollY viewportHeight) in *.
  assert (Hc1 : 1 <= 1) by lra. assert (Hc2 : 1 # 2 <= 1) by lra.
  destruct (Hfull Hc1) as [Hf1 Hf2]. destruct (Hhalf Hc2) as [Hh1 Hh2].
  split; [|split].
  - split; [lra|]. split; intros E.
    + assert (Hp : 1 <= p) by lra. specialize (Hf1 Hp). lra.
    + assert (Hp : 1 <= p) by (apply Hf2; lra). lra.
  - lra.
  - destruct (Qlt_le_dec 0 (1 - p * 2)) as [Hlt|Hge].
    + split; [lra|]. split; intros E; [lra|].
      assert (Hp : 1 # 2 <= p) by (apply Hh2; lra). lra.
    + split; [lra|]. split; intros E; [|lra].
      assert (Hp : 1 # 2 <= p) by lra. specialize (Hh1 Hp). lra.
Qed.

Lemma hero_layers_fade_out_witness :
  Hero.contentScale 560 800 == 95 # 100
  /\ Hero.scrollIndicatorOpacity 280 800 == 0
  /\ Hero.contentOpacity 560 800 == 0.
Proof.
  assert (Hvh : 0 < 800) by reflexivity.
  destruct (hero_layers_fade_out 800 560 Hvh) as ((_ & Ho) & _ & _); [discriminate|].
  destruct (hero_layers_fade_out 800 280 Hvh) as (_ & _ & (_ & Hi)); [discriminate|].
  split; [reflexivity|]. split.
  - apply Hi. discriminate.
  - apply Ho. discriminate.
Defined.

Module HeroPointerFacts.

Import HeroPointer.

Lemma heroScrollAll_snoc vh evs w y :
  scrollAll vh (evs ++ [w]) y = Hero.handleScroll vh w (scrollAll vh evs y).
Proof. unfold scrollAll. now rewrite fold_left_app. Qed.

Lemma lastBelow_snoc vh evs w d :
  lastBelow vh (evs ++ [w]) d
  = if Qlt_le_dec w vh then w else lastBelow vh evs d.
Proof.
  unfold lastBelow. rewrite filter_app. cbn [filter].
  destruct (Qlt_le_dec w vh).
  - apply last_last.
  - now rewrite app_nil_r.
Qed.

Lemma unit_quotient a d : 0 < d -> 0 <= a <= d -> 0 <= a / d <= 1.
Proof.
  intros Hd [H0 H1]. split.
  - apply JsMathFacts.div_nonneg; assumption.
  - apply JsMathFacts.div_le_1; assumption.
Qed.

End HeroPointerFacts.

(** X2.  Whatever offsets the window reports, the hero's stored [scrollY]
    stays below the viewport height: it is the last reported offset below
    the viewport height (0 if there was none), so offsets at or beyond the
    viewport height leave the hero frozen at its previous state. *)
Theorem hero_scroll_freezes_beyond_viewport (viewportHeight : Q) (events : list Q) :
  0 < viewportHeight ->
  HeroPointer.scrollAll viewportHeight events 0 < viewportHeight
  /\ HeroPointer.scrollAll viewportHeight events 0
     = HeroPointer.lastBelow viewportHeight events 0.
Proof.
  intros Hvh. induction events as [|w events [IHlt IHeq]] using rev_ind.
  - split; [exact Hvh | reflexivity].
  - rewrite HeroPointerFacts.heroScrollAll_snoc, HeroPointerFacts.lastBelow_snoc.
    unfold Hero.handleScroll.
    destruct (Qlt_le_dec w viewportHeight); split; auto.
Qed.

Lemma hero_scroll_freezes_beyond_viewport_witness :
  HeroPointer.scrollAll 800 [100; 2000; 3000] 0 < 800
  /\ HeroPointer.scrollAll 800 [100; 2000; 3000] 0 = 100.
Proof.
  assert (Hvh : 0 < 800) by reflexivity.
  destruct (hero_scroll_freezes_beyond_viewport 800 [100; 2000; 3000] Hvh) as [H1 H2].
  split; [exact H1|]. rewrite H2. reflexivity.
Defined.

(** X3.  For a pointer inside the window the content is shifted by at most
    5 px horizontally (2.5 px for the vertical offset), the 3D canvas moves
    the opposite way by half as much (at most 2.5 px and 1.25 px), and the
    horizontal offset vanishes exactly when the pointer is at mid-width. *)
Theorem hero_pointer_parallax_bounds (clientX clientY innerWidth innerHeight : Q) :
  0 < innerWidth -> 0 < innerHeight ->
  0 <= clientX <= innerWidth -> 0 <= clientY <= innerHeight ->
  let m := HeroPointer.handleMouseMove clientX clientY innerWidth innerHeight in
  (- (5) <= HeroPointer.mouseOffsetX m <= 5
   /\ - (5 # 2) <= HeroPointer.mouseOffsetY m <= 5 # 2)
  /\ (HeroPointer.canvasTranslateX m == - (HeroPointer.contentTranslateX m / 2)
      /\ - (5 # 2) <= HeroPointer.canvasTranslateX m <= 5 # 2
      /\ - (5 # 4) <= HeroPointer.canvasTranslateY m <= 5 # 4)
  /\ (HeroPointer.mouseOffsetX m == 0 <-> clientX == innerWidth / 2).
Proof.
  intros Hw Hh Hx Hy m.
  pose proof (HeroPointerFacts.unit_quotient clientX innerWidth Hw Hx) as [Hx0 Hx1].
  pose proof (HeroPointerFacts.unit_quotient clientY innerHeight Hh Hy) as [Hy0 Hy1].
  unfold HeroPointer.canvasTranslateX, HeroPointer.canvasTranslateY,
    HeroPointer.contentTranslateX, HeroPointer.mouseOffsetX, HeroPointer.mouseOffsetY.
  subst m. cbn [HeroPointer.x HeroPointer.y HeroPointer.handleMouseMove].
  set (px := clientX / innerWidth) in *. set (py := clientY / innerHeight) in *.
  split; [|split].
  - lra.
  - split; [field|]. lra.
  - assert (E : clientX == px * innerWidth) by (unfold px; field; lra).
    split; intros H.
    + assert (Hp : px == 1 # 2) by lra. rewrite E, Hp. field.
    + assert (Hp : px == 1 # 2).
      { unfold px. rewrite H. field. lra. }
      lra.
Qed.

Lemma hero_pointer_parallax_bounds_witness :
  HeroPointer.mouseOffsetX (HeroPointer.handleMouseMove 1280 0 1280 720) == 5
  /\ HeroPointer.canvasTranslateX (HeroPointer.handleMouseMove 1280 0 1280 720)
     == - (5 # 2)
  /\ - (5 # 2) <= HeroPointer.mouseOffsetY (HeroPointer.handleMouseMove 1280 0 1280 720).
Proof.
  assert (Hw : 0 < 1280) by reflexivity. assert (Hh : 0 < 720) by reflexivity.
  assert (Hx : 0 <= 1280 <= 1280) by (split; discriminate).
  assert (Hy : 0 <= 0 <= 720) by (split; discriminate).
  destruct (hero_pointer_parallax_bounds 1280 0 1280 720 Hw Hh Hx Hy) as ((_ & Hb) & _ & _).
  split; [reflexivity|]. split; [reflexivity|]. exact (proj1 Hb).
Defined.

Module ActiveSectionFacts.

Import ActiveSection.

Lemma observerCallback_snoc entries e active :
  observerCallback (entries ++ [e]) active
  = if isIntersecting e then targetId e else observerCallback entries active.
Proof. unfold observerCallback. now rewrite fold_left_app. Qed.

(** Within one callback the last intersecting entry wins; without one the
    value is kept. *)
Lemma observerCallback_last entries active :
  observerCallback entries active
  = match find isIntersecting (rev entries) with
    | Some e => targetId e
    | None => active
    end.
Proof.
  induction entries as [|e entries IH] using rev_ind; [reflexivity|].
  rewrite observerCallback_snoc, rev_app_distr. cbn [rev app find].
  destruct (isIntersecting e); [reflexivity | exact IH].
Qed.

Lemma observerCallback_known entries active :
  Forall (fun e => In (targetId e) sections) entries ->
  active = EmptyString \/ In active sections ->
  observerCallback entries active = EmptyString
  \/ In (observerCallback entries active) sections.
Proof.
  intros Hall Hk. rewrite observerCallback_last.
  destruct (find isIntersecting (rev entries)) as [e|] eqn:Hf; [|exact Hk].
  apply find_some in Hf. destruct Hf as [Hin _].
  apply in_rev in Hin. rewrite Forall_forall in Hall. right. now apply Hall.
Qed.

Lemma observeAll_known batches active :
  Forall (fun e => In (targetId e) sections) (List.concat batches) ->
  active = EmptyString \/ In active sections ->
  observeAll batches active = EmptyString \/ In (observeAll batches active) sections.
Proof.
  unfold observeAll. revert active.
  induction batches as [|b batches IH]; intros active Hall Hk; [exact Hk|].
  cbn [List.concat] in Hall. apply Forall_app in Hall. destruct Hall as [Hb Hrest].
  cbn [fold_left]. apply IH; [exact Hrest|]. now apply observerCallback_known.
Qed.

End ActiveSectionFacts.

(** X4.  After any history of observer callbacks on the observed sections,
    one more callback sets the active section to the target of its last
    intersecting entry and leaves it unchanged when no entry intersects; the
    active section is always the empty string or one of the five section
    identifiers. *)
Theorem active_section_last_intersecting_wins
    (batches : list (list ActiveSection.Entry)) (entries : list ActiveSection.Entry) :
  Forall (fun e => In (ActiveSection.targetId e) ActiveSection.sections)
    (List.concat (batches ++ [entries])) ->
  let before := ActiveSection.observeAll batches ActiveSection.initial in
  let after := ActiveSection.observeAll (batches ++ [entries]) ActiveSection.initial in
  after = match find ActiveSection.isIntersecting (rev entries) with
          | Some e => ActiveSection.targetId e
          | None => before
          end
  /\ (after = EmptyString \/ In after ActiveSection.sections).
Proof.
  intros Hall before after. split.
  - subst after. unfold ActiveSection.observeAll. rewrite fold_left_app.
    cbn [fold_left]. apply ActiveSectionFacts.observerCallback_last.
  - apply ActiveSectionFacts.observeAll_known; [exact Hall | now left].
Qed.

Lemma active_section_last_intersecting_wins_witness :
  ActiveSection.observeAll
    ([[ActiveSection.mkEntry "divisions" true]]
     ++ [[ActiveSection.mkEntry "ecosystem" true;
          ActiveSection.mkEntry "impact" true;
          ActiveSection.mkEntry "divisions" false]])
    ActiveSection.initial = "impact"%string.
Proof.
  refine (proj1 (active_section_last_intersecting_wins
                   [[ActiveSection.mkEntry "divisions" true]]
                   [ActiveSection.mkEntry "ecosystem" true;
                    ActiveSection.mkEntry "impact" true;
                    ActiveSection.mkEntry "divisions" false] _)).
  repeat constructor; cbn; tauto.
Defined.

Module FocusTrapFacts.

Import FocusTrap.

Lemma last_default_indep (l : list nat) (d d' : nat) :
  l <> [] -> last l d = last l d'.
Proof.
  induction l as [|a [|b l] IH]; intros Hne; [contradiction | reflexivity |].
  change (last (b :: l) d = last (b :: l) d'). apply IH. discriminate.
Qed.

Lemma last_In (l : list nat) (d : nat) : l <> [] -> In (last l d) l.
Proof.
  induction l as [|a [|b l] IH]; intros Hne; [contradiction | now left |].
  right. apply IH. discriminate.
Qed.

Section Trap.

Variable browserDefault : bool -> nat -> nat.
Variable first : nat.
Variable others : list nat.

Let focusable := first :: others.
Let lastElement := last focusable first.

(** From every element but the last, Tab leads to an element of the menu;
    from every element but the first, Shift+Tab does. *)
Hypothesis forward : forall a,
  In a focusable -> a <> lastElement -> In (browserDefault false a) focusable.
Hypothesis backward : forall a,
  In a focusable -> a <> first -> In (browserDefault true a) focusable.

Lemma pressTab_wraps_forward : pressTab browserDefault focusable lastElement false = first.
Proof.
  unfold pressTab, handleKeyDown. cbn -[last Nat.eqb].
  fold focusable. fold lastElement. now rewrite Nat.eqb_refl.
Qed.

Lemma pressTab_wraps_backward : pressTab browserDefault focusable first true = lastElement.
Proof.
  unfold pressTab, handleKeyDown. cbn -[last Nat.eqb].
  now rewrite Nat.eqb_refl.
Qed.

Lemma pressTab_inside a shift :
  In a focusable -> In (pressTab browserDefault focusable a shift) focusable.
Proof.
  intros Ha. unfold pressTab, handleKeyDown. cbn -[last Nat.eqb In].
  fold focusable. fold lastElement.
  destruct shift; cbn -[last Nat.eqb In].
  - destruct (Nat.eqb a first) eqn:E; cbn -[last Nat.eqb In].
    + apply last_In. discriminate.
    + apply backward; [exact Ha|]. now apply Nat.eqb_neq.
  - destruct (Nat.eqb a lastElement) eqn:E; cbn -[last Nat.eqb In].
    + now left.
    + apply forward; [exact Ha|]. now apply Nat.eqb_neq.
Qed.

Lemma pressTabs_inside shifts a :
  In a focusable -> In (pressTabs browserDefault focusable a shifts) focusable.
Proof.
  unfold pressTabs. revert a.
  induction shifts as [|sh shifts IH]; intros a Ha; [exact Ha|].
  cbn [fold_left]. apply IH. now apply pressTab_inside.
Qed.

End Trap.

End FocusTrapFacts.

(** X5.  With the mobile menu open and the browser's own Tab / Shift+Tab
    moves staying inside the menu everywhere except forwards from its last
    and backwards from its first focusable element, any sequence of Tab and
    Shift+Tab presses starting inside the menu keeps the focus inside it:
    Tab on the last element goes to the first and Shift+Tab on the first goes
    to the last. *)
Theorem focus_trap_keeps_focus_inside
    (browserDefault : bool -> nat -> nat) (first : nat) (others : list nat)
    (active : nat) (shifts : list bool) :
  let focusable := first :: others in
  let lastElement := last focusable first in
  (forall a, In a focusable -> a <> lastElement ->
             In (browserDefault false a) focusable) ->
  (forall a, In a focusable -> a <> first ->
             In (browserDefault true a) focusable) ->
  In active focusable ->
  In (FocusTrap.pressTabs browserDefault focusable active shifts) focusable
  /\ FocusTrap.pressTab browserDefault focusable lastElement false = first
  /\ FocusTrap.pressTab browserDefault focusable first true = lastElement.
Proof.
  intros focusable lastElement Hf Hb Ha. split; [|split].
  - now apply FocusTrapFacts.pressTabs_inside.
  - apply FocusTrapFacts.pressTab_wraps_forward.
  - apply FocusTrapFacts.pressTab_wraps_backward.
Qed.

Lemma focus_trap_keeps_focus_inside_witness :
  let page := [0; 1; 2; 3; 4]%nat in
  let browserDefault := fun (shift : bool) a =>
        if shift then FocusTrap.prevIn page a else FocusTrap.nextIn page a in
  In (FocusTrap.pressTabs browserDefault [1; 2; 3]%nat 2%nat
        [false; false; false; true; true]) [1; 2; 3]%nat
  /\ FocusTrap.pressTabs browserDefault [1; 2; 3]%nat 2%nat
       [false; false; false; true; true] = 3%nat.
Proof.
  intros page browserDefault. split; [|reflexivity].
  apply (focus_trap_keeps_focus_inside browserDefault 1%nat [2; 3]%nat 2%nat).
  - intros a Ha Hne. cbn in Ha, Hne.
    destruct Ha as [<-|[<-|[<-|[]]]]; cbn; tauto.
  - intros a Ha Hne. cbn in Ha.
    destruct Ha as [<-|[<-|[<-|[]]]]; cbn; tauto.
  - cbn. tauto.
Defined.

Module MegaMenuHoverFacts.

Import MegaMenuHover.
Local Open Scope Z_scope.

(** *** Time passing *)

Lemma advance_nil upTo s : timers s = [] -> advance upTo s = s.
Proof. intros H. unfold advance. now rewrite H. Qed.

Lemma advance_single upTo s t :
  timers s = [t] ->
  advance upTo s
  = if due t <=? upTo
    then mkState (match action t with OpenMenu => true | CloseMenu => false end)
           (megaMenuTimeoutRef s) [] (nextId s)
    else s.
Proof.
  intros H. unfold advance. rewrite H. cbn [List.length advanceN]. rewrite H.
  cbn [earliest]. destruct (due t <=? upTo); [|reflexivity].
  unfold fire, clearTimeout. cbn [timers megaMenuOpen megaMenuTimeoutRef nextId].
  rewrite H. cbn [filter]. now rewrite Nat.eqb_refl.
Qed.

(** *** Rapid hover *)

Lemma calm_advance instant upTo s :
  upTo <= instant -> calm instant s -> calm instant (advance upTo s).
Proof.
  intros Hle [Hopen [Hnil|(t & Ht & Href & Hdue)]].
  - rewrite advance_nil by exact Hnil. split; [exact Hopen | now left].
  - rewrite (advance_single upTo s t Ht).
    destruct (due t <=? upTo) eqn:E.
    + apply Z.leb_le in E. split; [|now left]. cbn.
      destruct (action t); [|reflexivity].
      specialize (Hdue eq_refl). lia.
    + split; [exact Hopen|]. right. now exists t.
Qed.

Lemma clearRef_calm instant s :
  calm instant s -> timers (clearRef s) = [] /\ megaMenuOpen (clearRef s) = false
                    /\ nextId (clearRef s) = nextId s.
Proof.
  intros [Hopen [Hnil|(t & Ht & Href & _)]]; unfold clearRef.
  - destruct (megaMenuTimeoutRef s); cbn; rewrite ?Hnil; auto.
  - rewrite Href. cbn. rewrite Ht. cbn. rewrite Nat.eqb_refl. auto.
Qed.

Lemma calm_enter instant at_ s :
  instant < at_ + 150 -> calm instant s ->
  calm instant (handleDivisionsMouseEnter at_ s).
Proof.
  intros Hlate Hc. destruct (clearRef_calm instant s Hc) as (Hnil & Hopen & _).
  unfold handleDivisionsMouseEnter, armRef. split; [exact Hopen|].
  right. eexists. cbn [timers megaMenuTimeoutRef]. rewrite Hnil. cbn.
  repeat split. intros _. exact Hlate.
Qed.

Lemma calm_weaken instant instant' s :
  instant' <= instant -> calm instant s -> calm instant' s.
Proof.
  intros Hle [Ho [Hnil|(t & Ht & Href & Hdue)]]; split; auto.
  right. exists t. repeat split; auto. intros Ha. specialize (Hdue Ha). lia.
Qed.

(** Leaving the trigger cancels whatever was pending, whenever it was due. *)
Lemma calm_leave instant instant' at_ s :
  calm instant' s -> calm instant (handleDivisionsMouseLeave at_ s).
Proof.
  intros Hc. destruct (clearRef_calm instant' s Hc) as (Hnil & Hopen & _).
  unfold handleDivisionsMouseLeave, armRef. split; [exact Hopen|].
  right. eexists. cbn [timers megaMenuTimeoutRef]. rewrite Hnil. cbn.
  repeat split. discriminate.
Qed.

(** A hover shorter than 150 ms: the open timer armed at [enter] is
    cancelled at [leave], before it is due. *)
Lemma calm_pair instant enter leave s :
  enter <= leave < enter + 150 -> leave <= instant -> calm instant s ->
  calm instant (handle (handle s (enter, DivisionsEnter)) (leave, DivisionsLeave)).
Proof.
  intros [H1 H2] Hle Hc. unfold handle. cbn [fst snd].
  apply (calm_leave instant leave). apply calm_advance; [lia|].
  apply calm_enter; [exact H2|]. apply calm_advance; [exact H1|].
  now apply (calm_weaken instant).
Qed.

(** The pointer is still on the trigger at [instant], for less than 150 ms. *)
Lemma calm_dangling instant enter s :
  enter <= instant < enter + 150 -> calm instant s ->
  calm instant (handle s (enter, DivisionsEnter)).
Proof.
  intros [H1 H2] Hc. unfold handle. cbn [fst snd].
  apply calm_enter; [exact H2|]. now apply calm_advance.
Qed.

Lemma calm_pairs instant pairs s :
  Forall (fun p => fst p <= snd p < fst p + 150) pairs ->
  calm instant s ->
  calm instant
    (fold_left handle
       (filter (fun te => fst te <=? instant) (hoverPairs pairs)) s).
Proof.
  intros Hall. revert s.
  induction Hall as [|[enter leave] pairs Hp _ IH]; intros s Hc; [exact Hc|].
  cbn [fst snd] in Hp.
  change (hoverPairs ((enter, leave) :: pairs))
    with ((enter, DivisionsEnter) :: (leave, DivisionsLeave) :: hoverPairs pairs).
  cbn [filter fst].
  destruct (enter <=? instant) eqn:E1; destruct (leave <=? instant) eqn:E2;
    rewrite ?Z.leb_le, ?Z.leb_gt in E1, E2; cbn [fold_left]; apply IH.
  - apply calm_pair; [exact Hp | exact E2 | exact Hc].
  - apply calm_dangling; [lia | exact Hc].
  - lia.
  - exact Hc.
Qed.

Lemma calm_initial instant : calm instant initial.
Proof. split; [reflexivity | now left]. Qed.

(** *** Debounce *)

Lemma debounced_advance upTo s : debounced s -> debounced (advance upTo s).
Proof.
  intros [Hnil|(t & Ht & Href)].
  - rewrite advance_nil by exact Hnil. now left.
  - rewrite (advance_single upTo s t Ht). destruct (due t <=? upTo).
    + now left.
    + right. now exists t.
Qed.

Lemma advance_keeps_empty upTo s : timers s = [] -> timers (advance upTo s) = [].
Proof. intros H. now rewrite advance_nil. Qed.

Lemma debounced_clearRef s : debounced s -> timers (clearRef s) = [].
Proof.
  intros [Hnil|(t & Ht & Href)]; unfold clearRef.
  - destruct (megaMenuTimeoutRef s); cbn; now rewrite ?Hnil.
  - rewrite Href. cbn. rewrite Ht. cbn. now rewrite Nat.eqb_refl.
Qed.

Lemma debounced_arm a delay at_ s :
  timers s = [] -> debounced (armRef a delay at_ s).
Proof.
  intros Hnil. right. eexists. unfold armRef. cbn. rewrite Hnil. cbn. split; reflexivity.
Qed.

(** One event of a pointer-consistent session keeps the invariant; [inside]
    records that the pointer is over the wrapper, where nothing is pending. *)
Lemma debounced_handle s at_ e inside rest :
  pointerConsistent inside (e :: rest) = true ->
  debounced s -> (inside = true -> timers s = []) ->
  exists inside',
    pointerConsistent inside' rest = true
    /\ debounced (handle s (at_, e))
    /\ (inside' = true -> timers (handle s (at_, e)) = []).
Proof.
  intros Hpc Hd Hin.
  pose proof (debounced_advance at_ s Hd) as Hd'.
  unfold handle. cbn [fst snd]. destruct e; cbn [pointerConsistent] in Hpc.
  - exists false. split; [exact Hpc|]. split; [|discriminate].
    apply debounced_arm. now apply debounced_clearRef.
  - exists false. split; [exact Hpc|]. split; [|discriminate].
    apply debounced_arm. now apply debounced_clearRef.
  - exists true. split; [exact Hpc|].
    pose proof (debounced_clearRef _ Hd') as Hnil.
    unfold handleMegaMenuMouseEnter. split; [now left | auto].
  - apply andb_true_iff in Hpc. destruct Hpc as [-> Hpc].
    exists false. split; [exact Hpc|]. split; [|discriminate].
    apply debounced_arm. apply advance_keeps_empty. now apply Hin.
  - exists inside. split; [exact Hpc|]. unfold onClose. split.
    + destruct Hd' as [Hnil|(t & Ht & Href)]; [now left | right; now exists t].
    + intros Hi. cbn. apply advance_keeps_empty. now apply Hin.
Qed.

Lemma debounced_session events s inside :
  pointerConsistent inside (map snd events) = true ->
  debounced s -> (inside = true -> timers s = []) ->
  debounced (fold_left handle events s).
Proof.
  revert s inside. induction events as [|[at_ e] events IH]; intros s inside Hpc Hd Hin.
  - exact Hd.
  - cbn [map snd] in Hpc.
    destruct (debounced_handle s at_ e inside _ Hpc Hd Hin) as (inside' & Hpc' & Hd' & Hin').
    cbn [fold_left]. now apply (IH _ inside').
Qed.

(** [handleMegaMenuMouseLeave] alone cancels nothing: outside a consistent
    session two timers can be pending at once. *)
Lemma menu_leave_queues at_ s :
  timers (handleMegaMenuMouseLeave at_ s)
  = timers s ++ [mkTimer (nextId s) (at_ + 200) CloseMenu].
Proof. reflexivity. Qed.

End MegaMenuHoverFacts.

(** X6.  If every visit of the pointer to the Divisions trigger lasts less
    than 150 ms, the mega menu is closed at every instant, however many such
    visits there are and however close together. *)
Theorem mega_menu_rapid_hover_never_opens (pairs : list (Z * Z)) (instant : Z) :
  Forall (fun p => (fst p <= snd p < fst p + 150)%Z) pairs ->
  MegaMenuHover.megaMenuOpen
    (MegaMenuHover.stateAt (MegaMenuHover.hoverPairs pairs) instant) = false.
Proof.
  intros Hall. unfold MegaMenuHover.stateAt.
  apply (MegaMenuHoverFacts.calm_advance instant instant); [apply Z.le_refl|].
  apply MegaMenuHoverFacts.calm_pairs; [exact Hall|].
  apply MegaMenuHoverFacts.calm_initial.
Qed.

Lemma mega_menu_rapid_hover_never_opens_witness :
  MegaMenuHover.megaMenuOpen
    (MegaMenuHover.stateAt
       (MegaMenuHover.hoverPairs [(0, 149); (200, 300); (310, 320)]%Z) 1000%Z) = false
  /\ MegaMenuHover.megaMenuOpen
       (MegaMenuHover.stateAt (MegaMenuHover.hoverPairs [(0, 150)]%Z) 150%Z) = true.
Proof.
  split; [|reflexivity].
  apply mega_menu_rapid_hover_never_opens.
  repeat constructor; cbn; lia.
Defined.

(** X7.  In a session in which the pointer leaves the menu wrapper only
    after having entered it (no trigger event in between), at most one hover
    timer is pending at any time and it is the one held by
    [megaMenuTimeoutRef]: a new intent replaces the pending one. *)
Theorem mega_menu_timers_debounced (events : list (Z * MegaMenuHover.Event)) (instant : Z) :
  MegaMenuHover.pointerConsistent false (map snd events) = true ->
  MegaMenuHover.debounced (fold_left MegaMenuHover.handle events MegaMenuHover.initial)
  /\ (List.length
        (MegaMenuHover.timers
           (MegaMenuHover.advance instant
              (fold_left MegaMenuHover.handle events MegaMenuHover.initial))) <= 1)%nat.
Proof.
  intros Hpc.
  assert (Hd : MegaMenuHover.debounced
                 (fold_left MegaMenuHover.handle events MegaMenuHover.initial)).
  { apply (MegaMenuHoverFacts.debounced_session events _ false Hpc);
      [now left | discriminate]. }
  split; [exact Hd|].
  destruct (MegaMenuHoverFacts.debounced_advance instant _ Hd) as [->|(t & -> & _)];
    cbn; lia.
Qed.

Lemma mega_menu_timers_debounced_witness :
  let session := [(0, MegaMenuHover.DivisionsEnter); (200, MegaMenuHover.DivisionsLeave);
                  (250, MegaMenuHover.MenuEnter); (900, MegaMenuHover.MenuLeave);
                  (950, MegaMenuHover.DivisionsEnter)]%Z in
  MegaMenuHover.debounced (fold_left MegaMenuHover.handle session MegaMenuHover.initial)
  /\ List.length
       (MegaMenuHover.timers
          (fold_left MegaMenuHover.handle
             [(0, MegaMenuHover.DivisionsLeave); (10, MegaMenuHover.MenuLeave)]%Z
             MegaMenuHover.initial)) = 2%nat.
Proof.
  intros session. split; [|reflexivity].
  apply (mega_menu_timers_debounced session 0%Z). reflexivity.
Defined.

Module SearchFacts.

Import Search.
Local Open Scope string_scope.

Lemma append_assoc (a b c : string) : (a ++ b) ++ c = a ++ (b ++ c).
Proof. induction a as [|x a IH]; cbn; [reflexivity | now rewrite IH]. Qed.

Lemma prefix_iff (q s : string) :
  String.prefix q s = true <-> exists b, s = q ++ b.
Proof.
  revert s. induction q as [|c q IH]; intros s.
  - split; [intros _; now exists s | intros _; destruct s; reflexivity].
  - destruct s as [|d s]; cbn.
    + split; [discriminate | intros [b Hb]; discriminate].
    + destruct (Ascii.ascii_dec c d) as [->|Hne].
      * rewrite IH. split; intros [b Hb]; exists b; [now rewrite Hb | now injection Hb].
      * split; [discriminate | intros [b Hb]; injection Hb; intros; congruence].
Qed.

Lemma includes_here (s q : string) : String.prefix q s = true -> includes s q = true.
Proof. intros H. destruct s; cbn [includes]; now rewrite H. Qed.

Lemma includes_later (c : Ascii.ascii) (s q : string) :
  includes s q = true -> includes (String c s) q = true.
Proof. intros H. cbn [includes]. rewrite H. now destruct (String.prefix q (String c s)). Qed.

Lemma includes_inv (s q : string) :
  includes s q = true ->
  String.prefix q s = true
  \/ exists c rest, s = String c rest /\ includes rest q = true.
Proof.
  destruct s as [|c s]; cbn [includes]; destruct (String.prefix q _) eqn:Hp; intros H;
    try discriminate; try (now left).
  right. now exists c, s.
Qed.

(** [includes] finds exactly the contiguous occurrences. *)
Lemma includes_iff (s q : string) :
  includes s q = true <-> exists a b, s = a ++ q ++ b.
Proof.
  split.
  - induction s as [|c s IH]; intros H; apply includes_inv in H;
      destruct H as [Hp|(c' & rest & E & H)].
    + apply prefix_iff in Hp. destruct Hp as [b Hb]. now exists EmptyString, b.
    + discriminate.
    + apply prefix_iff in Hp. destruct Hp as [b Hb]. now exists EmptyString, b.
    + injection E as <- <-. destruct (IH H) as (a & b & Hab).
      exists (String c a), b. cbn. now rewrite Hab.
  - intros (a & b & H). subst s. induction a as [|x a IH].
    + apply includes_here. apply prefix_iff. now exists b.
    + cbn [append]. now apply includes_later.
Qed.

Lemma toLowerCase_app (a b : string) :
  toLowerCase (a ++ b) = toLowerCase a ++ toLowerCase b.
Proof. induction a as [|c a IH]; cbn; [reflexivity | now rewrite IH]. Qed.

Lemma includes_refl (s : string) : includes s s = true.
Proof.
  apply includes_iff. exists EmptyString, EmptyString. cbn.
  induction s as [|c s IH]; cbn; [reflexivity | now rewrite <- IH].
Qed.

(** What contains a string contains every part of it. *)
Lemma includes_part (s a q b : string) :
  includes s (a ++ q ++ b) = true -> includes s q = true.
Proof.
  rewrite !includes_iff. intros (u & v & H).
  exists (u ++ a), (b ++ v). rewrite H. now rewrite !append_assoc.
Qed.

Lemma matches_part (d : Division) (a q b : string) :
  matches (a ++ q ++ b) d = true -> matches q d = true.
Proof.
  unfold matches. rewrite !toLowerCase_app. rewrite !orb_true_iff.
  intros [H|H]; [left | right]; eapply includes_part; exact H.
Qed.

Lemma suggestions_In (q : string) (d : Division) :
  q <> EmptyString ->
  (In d (suggestions q) <-> In d divisions /\ matches q d = true).
Proof.
  intros Hq. destruct q; [contradiction|]. unfold suggestions. apply filter_In.
Qed.

Lemma toLowerCase_nonempty (q : string) :
  toLowerCase q <> EmptyString -> q <> EmptyString.
Proof. intros H ->. now apply H. Qed.

End SearchFacts.

(** X8.  Extending a non-empty ASCII query, at either end, never adds a
    suggestion: every division suggested for the longer query is suggested
    for the shorter one. *)
Theorem search_longer_query_narrows (before query after : string) (d : Search.Division) :
  Search.isAscii (before ++ query ++ after) = true ->
  query <> EmptyString ->
  In d (Search.suggestions (before ++ query ++ after)) ->
  In d (Search.suggestions query).
Proof.
  intros _ Hq Hin.
  assert (Hlong : (before ++ query ++ after)%string <> EmptyString).
  { destruct before; cbn; [|discriminate]. destruct query; [contradiction | discriminate]. }
  apply (SearchFacts.suggestions_In _ d Hlong) in Hin. destruct Hin as [Hd Hm].
  apply SearchFacts.suggestions_In; [exact Hq|]. split; [exact Hd|].
  eapply SearchFacts.matches_part. exact Hm.
Qed.

Lemma search_longer_query_narrows_witness :
  Search.suggestions "kronos t"%string
  = [Search.mkDivision "tech" "KRONOS TECH" "Innovation Engine"
       "Pioneering next-generation technology solutions that redefine industry standards."
       "#0071E3"]%string
  /\ In (hd (Search.mkDivision EmptyString EmptyString EmptyString EmptyString EmptyString) (Search.suggestions "kronos t"%string))
        (Search.suggestions "os"%string).
Proof.
  split; [reflexivity|].
  apply (search_longer_query_narrows "kron"%string "os"%string " t"%string).
  - reflexivity.
  - discriminate.
  - cbn. now left.
Defined.

(** X9.  An ASCII query that equals a division's name or tagline up to
    letter case finds that division. *)
Theorem search_finds_division_by_own_name (d : Search.Division) (query : string) :
  Search.isAscii query = true ->
  In d Search.divisions ->
  Search.toLowerCase query = Search.toLowerCase (Search.name d)
  \/ Search.toLowerCase query = Search.toLowerCase (Search.tagline d) ->
  In d (Search.suggestions query).
Proof.
  intros _ Hd Hq.
  assert (Hne : query <> EmptyString).
  { apply SearchFacts.toLowerCase_nonempty.
    unfold Search.divisions in Hd. cbn [In] in Hd.
    repeat (destruct Hd as [<-|Hd]; [destruct Hq as [-> | ->]; discriminate|]).
    contradiction. }
  apply SearchFacts.suggestions_In; [exact Hne|]. split; [exact Hd|].
  unfold Search.matches. apply orb_true_iff.
  destruct Hq as [-> | ->]; [left | right]; apply SearchFacts.includes_refl.
Qed.

Lemma search_finds_division_by_own_name_witness :
  exists d, Search.id d = "labs"%string /\ In d (Search.suggestions "kRoNoS LaBs"%string)
            /\ In d (Search.suggestions "research FRONTIER"%string).
Proof.
  exists (Search.mkDivision "labs" "KRONOS LABS" "Research Frontier"
            "Where breakthrough discoveries transform into world-changing innovations."
            "#00A862")%string.
  split; [reflexivity|]. split.
  - apply search_finds_division_by_own_name;
      [reflexivity | cbn; tauto | left; reflexivity].
  - apply search_finds_division_by_own_name;
      [reflexivity | cbn; tauto | right; reflexivity].
Defined.

Module BodyLockSingleFacts.

Import BodyLock BodyLockSingle.

Lemma step_searchOnly s e : e <> ToggleMobile -> searchOnly s -> searchOnly (step s e).
Proof.
  destruct s as [m q g o]. unfold searchOnly, locked. cbn [searchOpen mobileOpen overflow].
  intros He [-> Hl].
  destruct e as [| | | | |b|]; try contradiction; try destruct b; destruct q, g; cbn; auto.
Qed.

Lemma run_searchOnly events :
  Forall (fun e => e <> ToggleMobile) events -> searchOnly (run events).
Proof.
  unfold run. induction events as [|e events IH] using rev_ind; intros Hall.
  - split; reflexivity.
  - apply Forall_app in Hall. destruct Hall as [Hev He].
    rewrite fold_left_app. cbn [fold_left]. apply step_searchOnly.
    + now inversion He.
    + now apply IH.
Qed.

(** A render of [Navigation] that changes neither overlay flag re-runs the
    effect of the search overlay alone. *)
Lemma step_NavRender s :
  locked (step s NavRender) = searchOpen s
  /\ mobileOpen (step s NavRender) = mobileOpen s
  /\ searchOpen (step s NavRender) = searchOpen s.
Proof.
  unfold step. destruct (BodyLockFacts.commit_flags false s) as [-> ->].
  rewrite BodyLockFacts.commit_locked. repeat split.
Qed.

End BodyLockSingleFacts.

(** X10.  The effect of the search overlay is re-run by every render of
    [Navigation], so the lock follows the search overlay: after any events
    and one more render of [Navigation] (a scroll that changes [lastScrollY],
    for one) the body is scroll-locked exactly when the search overlay is
    open, whatever the mobile menu is; in a session that never toggles the
    mobile menu the lock is exact after every event; and the body is never
    locked while both overlays are closed. *)
Theorem body_lock_follows_search_overlay (events : list BodyLock.Event) :
  (BodyLock.locked (BodyLock.run (events ++ [BodyLock.NavRender]))
     = BodyLock.searchOpen (BodyLock.run events)
   /\ BodyLock.mobileOpen (BodyLock.run (events ++ [BodyLock.NavRender]))
      = BodyLock.mobileOpen (BodyLock.run events)
   /\ BodyLock.searchOpen (BodyLock.run (events ++ [BodyLock.NavRender]))
      = BodyLock.searchOpen (BodyLock.run events))
  /\ (Forall (fun e => e <> BodyLock.ToggleMobile) events ->
        BodyLock.mobileOpen (BodyLock.run events) = false
        /\ BodyLock.locked (BodyLock.run events)
           = BodyLock.anyOverlayOpen (BodyLock.run events))
  /\ (BodyLock.locked (BodyLock.run events) = true ->
        BodyLock.anyOverlayOpen (BodyLock.run events) = true).
Proof.
  split; [|split].
  - unfold BodyLock.run. rewrite fold_left_app. cbn [fold_left].
    apply BodyLockSingleFacts.step_NavRender.
  - intros H. destruct (BodyLockSingleFacts.run_searchOnly events H) as [Hm Hl].
    split; [exact Hm|]. unfold BodyLock.anyOverlayOpen. now rewrite Hm, Hl.
  - apply BodyLockFacts.run_locked_open.
Qed.

Lemma body_lock_follows_search_overlay_witness :
  BodyLock.locked
    (BodyLock.run [BodyLock.OpenSearch; BodyLock.NavRender; BodyLock.SetMegaMenu true]) = true
  /\ BodyLock.locked
       (BodyLock.run [BodyLock.OpenSearch; BodyLock.NavRender; BodyLock.Escape]) = false
  /\ BodyLock.mobileOpen (BodyLock.run ([BodyLock.ToggleMobile] ++ [BodyLock.NavRender])) = true
  /\ BodyLock.locked (BodyLock.run ([BodyLock.ToggleMobile] ++ [BodyLock.NavRender])) = false.
Proof.
  split; [|split; [|split]].
  - destruct (body_lock_follows_search_overlay
                [BodyLock.OpenSearch; BodyLock.NavRender; BodyLock.SetMegaMenu true])
      as (_ & H & _).
    assert (F : Forall (fun e => e <> BodyLock.ToggleMobile)
                  [BodyLock.OpenSearch; BodyLock.NavRender; BodyLock.SetMegaMenu true])
      by (repeat constructor; discriminate).
    destruct (H F) as [_ ->]. reflexivity.
  - destruct (body_lock_follows_search_overlay
                [BodyLock.OpenSearch; BodyLock.NavRender; BodyLock.Escape])
      as (_ & H & _).
    assert (F : Forall (fun e => e <> BodyLock.ToggleMobile)
                  [BodyLock.OpenSearch; BodyLock.NavRender; BodyLock.Escape])
      by (repeat constructor; discriminate).
    destruct (H F) as [_ ->]. reflexivity.
  - destruct (body_lock_follows_search_overlay [BodyLock.ToggleMobile]) as ((_ & -> & _) & _).
    reflexivity.
  - destruct (body_lock_follows_search_overlay [BodyLock.ToggleMobile]) as ((-> & _) & _).
    reflexivity.
Defined.

(** X11.  For a target that is a double with [2^-1016 <= value <= 2^1023] the
    counter is still running, its count below the target, after every number
    [n <= 59] of ticks, and it is stopped after the 61st: the animation takes
    60 or 61 intervals of 30 ms. *)
Theorem counter_runs_sixty_or_sixty_one_ticks (value : Q) (n : nat) :
  Binary64.pow2 (-1016) <= value ->
  Binary64.round value == value ->
  value <= Binary64.pow2 1023 ->
  (n <= 59)%nat ->
  AnimatedCounter.running (AnimatedCounter.ticks value n) = true
  /\ AnimatedCounter.count (AnimatedCounter.ticks value n) < value
  /\ AnimatedCounter.running (AnimatedCounter.ticks value 61) = false.
Proof.
  intros Hn Hd Hmax Hk.
  destruct (AnimatedCounterFacts.still_running value Hn n Hk) as [Hr _].
  split; [exact Hr|]. split; [|now apply AnimatedCounterFacts.stopped_at_61].
  pose proof (AnimatedCounterFacts.value_pos value Hn) as Hv.
  destruct n as [|n]; [exact Hv|].
  pose proof (AnimatedCounterFacts.running_below value n Hr) as Hlt.
  assert (Hv0 : 0 <= value) by lra.
  destruct (AnimatedCounterFacts.inv_ticks value (S n) Hv0) as (_ & _ & Hi).
  rewrite Hr in Hi. destruct Hi as [Hfl _]. rewrite Hfl.
  pose proof (JsMathFacts.floor_le (AnimatedCounter.current (AnimatedCounter.ticks value (S n)))).
  lra.
Qed.

Lemma counter_runs_sixty_or_sixty_one_ticks_witness :
  (Binary64.pow2 (-1016) <= 10000 /\ Binary64.round 10000 == 10000
   /\ 10000 <= Binary64.pow2 1023 /\ (59 <= 59)%nat)
  /\ AnimatedCounter.running (AnimatedCounter.ticks 10000 59) = true
  /\ AnimatedCounter.count (AnimatedCounter.ticks 10000 59) < 10000
  /\ AnimatedCounter.running (AnimatedCounter.ticks 10000 61) = false.
Proof.
  assert (Hn : Binary64.pow2 (-1016) <= 10000) by (vm_compute; discriminate).
  assert (Hd : Binary64.round 10000 == 10000) by (vm_compute; reflexivity).
  assert (Hmax : 10000 <= Binary64.pow2 1023) by (vm_compute; discriminate).
  assert (Hk : (59 <= 59)%nat) by lia.
  split; [repeat split; assumption|].
  exact (counter_runs_sixty_or_sixty_one_ticks 10000 59 Hn Hd Hmax Hk).
Defined.

(** X12.  One tick of a stage never lowers the displayed progress and never
    shows more than the stage target, provided the display is not ahead of
    the accumulator, the accumulator has not passed the target and the
    increment is not negative; these three conditions hold again after the
    tick. *)
Theorem preloader_display_monotone_bounded
    (env : Preloader.Env) (self : nat) (tgt : Z) (inc : Q) (s : Preloader.State) :
  Preloader.mounted s = true ->
  inject_Z (Preloader.progress s) <= Preloader.currentProgress s ->
  Preloader.currentProgress s <= inject_Z tgt ->
  0 <= inc ->
  let s' := Preloader.stageTick env self tgt inc s in
  (Preloader.progress s <= Preloader.progress s' <= tgt)%Z
  /\ inject_Z (Preloader.progress s') <= Preloader.currentProgress s'
  /\ Preloader.currentProgress s' <= inject_Z tgt.
Proof.
  intros Hm Hp Hc Hi. unfold Preloader.stageTick.
  destruct (Qlt_le_dec (Preloader.currentProgress s + inc) (inject_Z tgt)) as [Hlt|Hge];
    unfold Preloader.setProgress; destruct s; cbn in *; subst; cbn.
  - pose proof (Qfloor_le (currentProgress + inc)) as Hfl.
    assert (Hlow : (progress <= Qfloor (currentProgress + inc))%Z).
    { rewrite <- (Qfloor_Z progress). apply Qfloor_resp_le. lra. }
    assert (Hup : (Qfloor (currentProgress + inc) <= tgt)%Z).
    { rewrite <- (Qfloor_Z tgt). apply Qfloor_resp_le. lra. }
    repeat split; try assumption. lra.
  - assert (Hle : (progress <= tgt)%Z) by (rewrite Zle_Qle; lra).
    repeat split; try lia; lra.
Qed.

Lemma preloader_display_monotone_bounded_witness :
  let s := Preloader.run (Preloader.constEnv 100) 400 608 [] Preloader.mount in
  (Preloader.progress s
   <= Preloader.progress (Preloader.stageTick (Preloader.constEnv 100) 5 35 (320 # 400) s)
   <= 35)%Z.
Proof.
  intros s.
  assert (Hm : Preloader.mounted s = true) by (vm_compute; reflexivity).
  assert (Hp : inject_Z (Preloader.progress s) <= Preloader.currentProgress s)
    by (vm_compute; discriminate).
  assert (Hc : Preloader.currentProgress s <= inject_Z 35) by (vm_compute; discriminate).
  assert (Hi : 0 <= 320 # 400) by discriminate.
  exact (proj1 (preloader_display_monotone_bounded
                  (Preloader.constEnv 100) 5 35 (320 # 400) s Hm Hp Hc Hi)).
Defined.

Module StageArithmeticFacts.

Import StageArithmetic.

(** In exact arithmetic the increment is the one of [Preloader]. *)
Lemma increment_exact st cp : increment exact st cp = Preloader.stageIncrement st cp.
Proof. reflexivity. Qed.

(** Twenty-five additions of [(90 - 75) / (400 / 16)] to 75 in binary64 fall
    short of 90; exactly, they reach it. *)
Lemma fifth_stage_short :
  let st := Preloader.mkStage 90 400 in
  nth 24 (Binary64Check.roundedSums (increment Binary64.round st 75) 25 75) 0 < 90
  /\ 75 + 25 * increment exact st 75 == 90.
Proof. split; vm_compute; reflexivity. Qed.

End StageArithmeticFacts.

(** X13.  With every operation rounded to binary64 the six stages of the
    preloader take 13, 25, 19, 32, 26 and 13 firings of their 16 ms interval,
    2048 ms in all.  In exact arithmetic, the arithmetic of [Preloader], a
    stage takes [ceil (duration / 16)] firings; the fifth stage takes one
    more in binary64, because 25 additions of the rounded 0.6 to 75 give a
    double just below 90. *)
Theorem preloader_stage_ticks_binary64 :
  StageArithmetic.stageTicks Binary64.round 40 Preloader.stages 0
    = [Some 13; Some 25; Some 19; Some 32; Some 26; Some 13]%nat
  /\ StageArithmetic.stageTicks StageArithmetic.exact 40 Preloader.stages 0
     = [Some 13; Some 25; Some 19; Some 32; Some 25; Some 13]%nat
  /\ StageArithmetic.intervalTime
       (StageArithmetic.stageTicks Binary64.round 40 Preloader.stages 0) = 2048%Z
  /\ StageArithmetic.intervalTime
       (StageArithmetic.stageTicks StageArithmetic.exact 40 Preloader.stages 0) = 2032%Z
  /\ (forall st cp,
        StageArithmetic.increment StageArithmetic.exact st cp = Preloader.stageIncrement st cp).
Proof.
  split; [vm_compute; reflexivity|]. split; [vm_compute; reflexivity|].
  split; [vm_compute; reflexivity|]. split; [vm_compute; reflexivity|].
  exact StageArithmeticFacts.increment_exact.
Qed.

Module PreloaderUnmountFacts.

Import Preloader.
Local Open Scope Z_scope.

Lemma clearHandle_keeps h s t :
  In t (timers s) -> h <> Some (id t) -> In t (timers (clearHandle h s)).
Proof.
  intros Hin Hne. destruct h as [i|]; [|exact Hin].
  destruct s; cbn in *. apply filter_In. split; [exact Hin|].
  apply negb_true_iff, Nat.eqb_neq. congruence.
Qed.

End PreloaderUnmountFacts.

(** X14.  Unmounting cancels only the four timers whose handles the effects
    kept: a pending [setTimeout(onComplete, _)] is still in the queue after
    the unmount, and when it fires the prop is called although the component
    is gone. *)
Theorem preloader_pending_completion_survives_unmount
    (env : Preloader.Env) (s : Preloader.State) (t : Preloader.Timer) (k : nat) :
  In t (Preloader.timers s) ->
  Preloader.callback t = Preloader.OnComplete k ->
  Preloader.every t = None ->
  Preloader.skipTimer s <> Some (Preloader.id t) ->
  Preloader.timeoutFallback s <> Some (Preloader.id t) ->
  Preloader.startTimer s <> Some (Preloader.id t) ->
  Preloader.exitTimer s <> Some (Preloader.id t) ->
  let s' := Preloader.unmount s in
  Preloader.mounted s' = false
  /\ In t (Preloader.timers s')
  /\ Preloader.calls (Preloader.dispatch env t s')
     = (Z.max (Preloader.now s) (Preloader.due t), k) :: Preloader.calls s.
Proof.
  intros Hin Hcb Hev H1 H2 H3 H4 s'.
  assert (Hin' : In t (Preloader.timers s')).
  { subst s'. unfold Preloader.unmount, Preloader.exitEffect_cleanup,
      Preloader.timeoutEffect_cleanup.
    destruct s as [now0 mounted0 loaded0 onComplete0 progress0 phase0 assetsReady0 showSkip0
                   currentStage0 currentProgress0 timers0 nextId0 skipTimer0 timeoutFallback0
                   startTimer0 exitTimer0 calls0].
    cbn in Hin, H1, H2, H3, H4.
    destruct skipTimer0, timeoutFallback0, startTimer0, exitTimer0; cbn;
      repeat (apply filter_In; split; [|apply negb_true_iff, Nat.eqb_neq; congruence]);
      exact Hin. }
  split; [reflexivity|]. split; [exact Hin'|].
  subst s'. unfold Preloader.dispatch, Preloader.fire. rewrite Hev, Hcb.
  unfold Preloader.callOnComplete.
  destruct s as [now0 mounted0 loaded0 onComplete0 progress0 phase0 assetsReady0 showSkip0
                 currentStage0 currentProgress0 timers0 nextId0 skipTimer0 timeoutFallback0
                 startTimer0 exitTimer0 calls0].
  destruct skipTimer0, timeoutFallback0, startTimer0, exitTimer0, loaded0; reflexivity.
Qed.

Lemma preloader_pending_completion_survives_unmount_witness :
  let env := Preloader.constEnv 100 in
  let s := Preloader.run env 400 5231 [(4000%Z, Preloader.ParentRender)] Preloader.mount in
  let t := Preloader.mkTimer 22 5400 None (Preloader.OnComplete 1) in
  In t (Preloader.timers s)
  /\ Preloader.mounted (Preloader.unmount s) = false
  /\ Preloader.calls (Preloader.dispatch env t (Preloader.unmount s))
     = (Z.max (Preloader.now s) 5400, 1%nat) :: Preloader.calls s.
Proof.
  intros env s t.
  assert (Hin : In t (Preloader.timers s)) by (vm_compute; tauto).
  assert (H1 : Preloader.skipTimer s <> Some (Preloader.id t)) by (vm_compute; discriminate).
  assert (H2 : Preloader.timeoutFallback s <> Some (Preloader.id t))
    by (vm_compute; discriminate).
  assert (H3 : Preloader.startTimer s <> Some (Preloader.id t)) by (vm_compute; discriminate).
  assert (H4 : Preloader.exitTimer s <> Some (Preloader.id t)) by (vm_compute; discriminate).
  destruct (preloader_pending_completion_survives_unmount env s t 1%nat Hin eq_refl eq_refl
              H1 H2 H3 H4) as (Hm & _ & Hc).
  split; [exact Hin|]. split; [exact Hm | exact Hc].
Defined.
